(** * XXH64 streaming digest: a shallow embedding of [xxhash.go]

    The Go package keeps a [Digest] of four 64-bit lanes, a byte count, and
    a 32-byte carry buffer.  This file embeds [Reset], [New], [Write],
    [Sum64], [round] and [mergeRound] as written in [xxhash.go], with Go's
    fixed-width arithmetic spelled out over [Z], run-time panics as [None],
    and the receiver [*Digest] threaded explicitly through every method. *)

From Equations Require Import Equations.
From Stdlib Require Import ZArith List Lia Bool.
From Stdlib.Strings Require Import Byte.
Import ListNotations.

Local Open Scope Z_scope.

(** ** Fixed-width integers *)

(** [uint64]: values are kept in [0, 2^64); every operation wraps. *)
Definition wrap64 (x : Z) : Z := x mod 2 ^ 64.
Definition add64 (a b : Z) : Z := wrap64 (a + b).
Definition mul64 (a b : Z) : Z := wrap64 (a * b).
Definition neg64 (a : Z) : Z := wrap64 (- a).
Definition xor64 (a b : Z) : Z := Z.lxor a b.
Definition shr64 (a k : Z) : Z := Z.shiftr a k.

(** [int]: Go's signed machine integer, 64 bits wide on the targets the
    package's assembly is written for.  Arithmetic wraps in two's
    complement. *)
Definition min_int : Z := - 2 ^ 63.
Definition max_int : Z := 2 ^ 63 - 1.
Definition wrap_int (x : Z) : Z := (x + 2 ^ 63) mod 2 ^ 64 - 2 ^ 63.
Definition add_int (a b : Z) : Z := wrap_int (a + b).
Definition sub_int (a b : Z) : Z := wrap_int (a - b).
Definition in_int (x : Z) : Prop := min_int <= x <= max_int.
Definition in_uint64 (x : Z) : Prop := 0 <= x < 2 ^ 64.

(** The conversion [uint64(x)] of an [int]. *)
Definition uint64_of_int (x : Z) : Z := wrap64 x.

(** ** Constants (xxhash.go, lines 9-15) *)

Definition prime1 : Z := 11400714785074694791.
Definition prime2 : Z := 14029467366897019727.
Definition prime3 : Z := 1609587929392839161.
Definition prime4 : Z := 9650029242287828579.
Definition prime5 : Z := 2870177450012600261.

Definition prime1v : Z := prime1.
Definition prime2v : Z := prime2.

(** ** Bytes and slices *)

Definition byte_val (x : byte) : Z := Z.of_N (Byte.to_N x).

(** [len(b)] of a slice.  A Go slice never has more than [max_int]
    elements. *)
Definition len {A} (b : list A) : Z := Z.of_nat (length b).

(** Little-endian value of a run of bytes. *)
Fixpoint le_uint (l : list byte) : Z :=
  match l with
  | [] => 0
  | x :: r => byte_val x + 256 * le_uint r
  end.

(** [binary.LittleEndian.Uint64] and [Uint32]: both panic on a slice that
    is too short and read the leading bytes otherwise. *)
Definition u64 (b : list byte) : option Z :=
  if len b <? 8 then None else Some (le_uint (firstn 8 b)).
Definition u32 (b : list byte) : option Z :=
  if len b <? 4 then None else Some (le_uint (firstn 4 b)).

(** [a[lo:hi]] on the array [mem], whose length 32 is part of its type. *)
Definition array_slice (a : list byte) (lo hi : Z) : option (list byte) :=
  if (0 <=? lo) && (lo <=? hi) && (hi <=? 32)
  then Some (firstn (Z.to_nat (hi - lo)) (skipn (Z.to_nat lo) a))
  else None.

(** [a[i]] on the array [mem]. *)
Definition array_index (a : list byte) (i : Z) : option byte :=
  if (0 <=? i) && (i <? 32) then nth_error a (Z.to_nat i) else None.

(** [b[lo:]] on a slice. *)
Definition slice_from (b : list byte) (lo : Z) : option (list byte) :=
  if (0 <=? lo) && (lo <=? len b) then Some (skipn (Z.to_nat lo) b) else None.

(** [copy(a[off:], src)]: the destination aliases the array, so the result
    is the array with [min(32 - off, len(src))] bytes overwritten from
    offset [off]; slicing the array out of range panics. *)
Definition copy_at (a : list byte) (off : Z) (src : list byte)
  : option (list byte) :=
  if (0 <=? off) && (off <=? 32) then
    let k := Nat.min (Z.to_nat (32 - off)) (length src) in
    Some (firstn (Z.to_nat off) a ++ firstn k src
            ++ skipn (Z.to_nat off + k) a)
  else None.

(** ** Rotations *)

(** Modelled from the spec: the helpers [rol1] ... [rol31] are declared in
    a file of the package that is not part of the sources at hand; the spec
    calls them [rotl(x, k)] / [rotate_left], a left rotation of a 64-bit
    word by [k] bit positions. *)
Definition rotl (x k : Z) : Z :=
  Z.lor (wrap64 (Z.shiftl x k)) (Z.shiftr x (64 - k)).

(** Modelled from the spec: the named helpers, one per rotation count the
    package uses. *)
Definition rol1 (x : Z) : Z := rotl x 1.
Definition rol7 (x : Z) : Z := rotl x 7.
Definition rol11 (x : Z) : Z := rotl x 11.
Definition rol12 (x : Z) : Z := rotl x 12.
Definition rol18 (x : Z) : Z := rotl x 18.
Definition rol23 (x : Z) : Z := rotl x 23.
Definition rol27 (x : Z) : Z := rotl x 27.
Definition rol31 (x : Z) : Z := rotl x 31.

(** ** Mixing primitives (xxhash.go, lines 180-192) *)

Definition round (acc input : Z) : Z :=
  let acc := add64 acc (mul64 input prime2) in
  let acc := rol31 acc in
  let acc := mul64 acc prime1 in
  acc.

Definition mergeRound (acc val : Z) : Z :=
  let val := round 0 val in
  let acc := xor64 acc val in
  let acc := add64 (mul64 acc prime1) prime4 in
  acc.

(** ** The digest (xxhash.go, lines 43-68) *)

Record Digest : Type := mkDigest {
  v1 : Z;
  v2 : Z;
  v3 : Z;
  v4 : Z;
  total : Z;        (* int *)
  mem : list byte;  (* [32]byte *)
  n : Z             (* int: how much of mem is used *)
}.

Definition set_lanes (d : Digest) (a b c e : Z) : Digest :=
  mkDigest a b c e (total d) (mem d) (n d).
Definition set_total (d : Digest) (t : Z) : Digest :=
  mkDigest (v1 d) (v2 d) (v3 d) (v4 d) t (mem d) (n d).
Definition set_mem (d : Digest) (m : list byte) : Digest :=
  mkDigest (v1 d) (v2 d) (v3 d) (v4 d) (total d) m (n d).
Definition set_n (d : Digest) (k : Z) : Digest :=
  mkDigest (v1 d) (v2 d) (v3 d) (v4 d) (total d) (mem d) k.

(** What the Go types guarantee of any [Digest] value. *)
Record well_typed (d : Digest) : Prop := mkWellTyped {
  wt_mem : length (mem d) = 32%nat;
  wt_total : in_int (total d);
  wt_n : in_int (n d)
}.

(** The resting invariant of the carry length. *)
Definition resting (d : Digest) : Prop := 0 <= n d < 32.

Definition Reset (d : Digest) : Digest :=
  let d := set_n d 0 in
  let d := set_total d 0 in
  let d := set_lanes d (add64 prime1v prime2) (v2 d) (v3 d) (v4 d) in
  let d := set_lanes d (v1 d) prime2 (v3 d) (v4 d) in
  let d := set_lanes d (v1 d) (v2 d) 0 (v4 d) in
  let d := set_lanes d (v1 d) (v2 d) (v3 d) (neg64 prime1v) in
  d.

(** The zero value of the struct, as [var d Digest] declares it. *)
Definition zero_Digest : Digest :=
  mkDigest 0 0 0 0 0 (repeat x00 32) 0.

Definition New : Digest := Reset zero_Digest.

(** ** Panics and results *)

(** A method either panics ([None]) or returns. *)
Definition bind {A B} (m : option A) (k : A -> option B) : option B :=
  match m with
  | Some a => k a
  | None => None
  end.

Notation "x <- m ;; k" := (bind m (fun x => k))
  (at level 61, m at next level, right associativity).
Notation "' p <- m ;; k" := (bind m (fun x => let p := x in k))
  (at level 61, p pattern, m at next level, right associativity).

(** Go's [error] interface: [nil] or some failure value. *)
Inductive error : Type :=
| no_error
| failure.

(** ** Block processing *)

(** One block step over the four little-endian words of a 32-byte block,
    lane [k] taking word [k] (xxhash.go, lines 91-94, on [d.mem]). *)
Definition round_block (d : Digest) (blk : list byte) : option Digest :=
  s0 <- array_slice blk 0 8 ;;
  w0 <- u64 s0 ;;
  let d := set_lanes d (round (v1 d) w0) (v2 d) (v3 d) (v4 d) in
  s1 <- array_slice blk 8 16 ;;
  w1 <- u64 s1 ;;
  let d := set_lanes d (v1 d) (round (v2 d) w1) (v3 d) (v4 d) in
  s2 <- array_slice blk 16 24 ;;
  w2 <- u64 s2 ;;
  let d := set_lanes d (v1 d) (v2 d) (round (v3 d) w2) (v4 d) in
  s3 <- array_slice blk 24 32 ;;
  w3 <- u64 s3 ;;
  let d := set_lanes d (v1 d) (v2 d) (v3 d) (round (v4 d) w3) in
  Some d.

(** Modelled from the spec: [writeBlocks] is defined in a file of the
    package that is not part of the sources at hand.  The spec (section
    4.2) has it read, for each consecutive 32-byte block, four 8-byte
    little-endian words [w0..w3], apply [v1 = round(v1, w0)] ...
    [v4 = round(v4, w3)] in that order, and return the number of bytes
    consumed: 32 times the number of full blocks present.  [mix_block] is
    the step on one block. *)
Definition mix_block (d : Digest) (blk : list byte) : Digest :=
  set_lanes d
    (round (v1 d) (le_uint (firstn 8 blk)))
    (round (v2 d) (le_uint (firstn 8 (skipn 8 blk))))
    (round (v3 d) (le_uint (firstn 8 (skipn 16 blk))))
    (round (v4 d) (le_uint (firstn 8 (skipn 24 blk)))).

(** Modelled from the spec: the first [k] consecutive blocks of [b], in
    order. *)
Fixpoint mix_blocks (k : nat) (d : Digest) (b : list byte) : Digest :=
  match k with
  | O => d
  | S k' => mix_blocks k' (mix_block d (firstn 32 b)) (skipn 32 b)
  end.

(** Modelled from the spec: [writeBlocks(d, b)] mixes as many full blocks
    as [b] holds and returns the number of bytes consumed. *)
Definition writeBlocks (d : Digest) (b : list byte) : Digest * Z :=
  let k := (length b / 32)%nat in
  (mix_blocks k d b, 32 * Z.of_nat k).

(** ** Write (xxhash.go, lines 77-110) *)

(** Lines 88-97: finish off the partial block.  Returns the digest and
    what is left of [b]. *)
Definition finish_partial (d : Digest) (b : list byte)
  : option (Digest * list byte) :=
  if n d >? 0 then
    m <- copy_at (mem d) (n d) b ;;
    let d := set_mem d m in
    d <- round_block d (mem d) ;;
    b <- slice_from b (sub_int 32 (n d)) ;;
    let d := set_n d 0 in
    Some (d, b)
  else Some (d, b).

(** Lines 99-103: one or more full blocks left. *)
Definition full_blocks (d : Digest) (b : list byte)
  : option (Digest * list byte) :=
  if len b >=? 32 then
    let '(d, nw) := writeBlocks d b in
    b <- slice_from b nw ;;
    Some (d, b)
  else Some (d, b).

(** Lines 105-107: store any remaining partial block. *)
Definition store_rest (d : Digest) (b : list byte) : option Digest :=
  m <- copy_at (mem d) 0 b ;;
  let d := set_mem d m in
  let d := set_n d (len b) in
  Some d.

Definition Write (d : Digest) (b : list byte)
  : option ((Z * error) * Digest) :=
  let ret_n := len b in
  let err := no_error in
  let d := set_total d (add_int (total d) (len b)) in
  if add_int (n d) (len b) <? 32 then
    m <- copy_at (mem d) (n d) b ;;
    let d := set_mem d m in
    let d := set_n d (add_int (n d) (len b)) in
    Some ((ret_n, err), d)
  else
    '(d, b) <- finish_partial d b ;;
    '(d, b) <- full_blocks d b ;;
    d <- store_rest d b ;;
    Some ((ret_n, err), d).

(** ** Sum64 (xxhash.go, lines 135-175) *)

(** Body of the 8-byte loop, lines 153-155. *)
Definition fold8 (h w : Z) : Z :=
  let k1 := round 0 w in
  let h := xor64 h k1 in
  add64 (mul64 (rol27 h) prime1) prime4.

(** Lines 158-159. *)
Definition fold4 (h w : Z) : Z :=
  let h := xor64 h (mul64 w prime1) in
  add64 (mul64 (rol23 h) prime2) prime3.

(** Body of the byte loop, lines 163-164. *)
Definition fold1 (h : Z) (x : byte) : Z :=
  let h := xor64 h (mul64 (byte_val x) prime5) in
  mul64 (rol11 h) prime1.

(** Lines 168-172. *)
Definition avalanche (h : Z) : Z :=
  let h := xor64 h (shr64 h 33) in
  let h := mul64 h prime2 in
  let h := xor64 h (shr64 h 29) in
  let h := mul64 h prime3 in
  let h := xor64 h (shr64 h 32) in
  h.

Definition inspect {A} (a : A) : {b : A | a = b} := exist _ a eq_refl.

(** [for ; i+8 <= end; i += 8 { ... }]: returns the final [i] and [h]. *)
Equations? loop8 (m : list byte) (end_ i h : Z) : option (Z * Z)
  by wf (Z.to_nat (32 - i)) lt :=
  loop8 m end_ i h with (add_int i 8 <=? end_) := {
    | false := Some (i, h)
    | true with inspect (array_slice m i (add_int i 8)) := {
      | exist _ None _ := None
      | exist _ (Some s) Hs with u64 s := {
        | None := None
        | Some w := loop8 m end_ (add_int i 8) (fold8 h w) } } }.
Proof.
  unfold array_slice in Hs.
  destruct ((0 <=? i) && (i <=? add_int i 8) && (add_int i 8 <=? 32)) eqn:E;
    [ | discriminate ].
  apply andb_prop in E as [E E3]. apply andb_prop in E as [E1 E2].
  apply Z.leb_le in E1, E2, E3.
  assert (Hi : i <= 32) by lia.
  assert (add_int i 8 = i + 8).
  { unfold add_int, wrap_int. rewrite Z.mod_small; lia. }
  change (Z.to_nat (32 - add_int i 8) < Z.to_nat (32 - i))%nat.
  lia.
Qed.

(** [for i < end { ...; i++ }]: returns the final [h]. *)
Equations? loop1 (m : list byte) (end_ i h : Z) : option Z
  by wf (Z.to_nat (32 - i)) lt :=
  loop1 m end_ i h with (i <? end_) := {
    | false := Some h
    | true with inspect (array_index m i) := {
      | exist _ None _ := None
      | exist _ (Some x) Hx := loop1 m end_ (add_int i 1) (fold1 h x) } }.
Proof.
  unfold array_index in Hx.
  destruct ((0 <=? i) && (i <? 32)) eqn:E; [ | discriminate ].
  apply andb_prop in E as [E1 E2].
  apply Z.leb_le in E1. apply Z.ltb_lt in E2.
  assert (add_int i 1 = i + 1).
  { unfold add_int, wrap_int. rewrite Z.mod_small; lia. }
  change (Z.to_nat (32 - add_int i 1) < Z.to_nat (32 - i))%nat.
  lia.
Qed.

(** Lines 138-149: the value of [h] before the carry buffer is folded.
    [total] is compared as the signed [int] it is, and converted to
    [uint64] for the addition. *)
Definition h_lanes (d : Digest) : Z :=
  if total d >=? 32 then
    let '(a, b, c, e) := (v1 d, v2 d, v3 d, v4 d) in
    let h := add64 (add64 (add64 (rol1 a) (rol7 b)) (rol12 c)) (rol18 e) in
    let h := mergeRound h a in
    let h := mergeRound h b in
    let h := mergeRound h c in
    let h := mergeRound h e in
    h
  else add64 (v3 d) prime5.

Definition h_start (d : Digest) : Z :=
  let h := h_lanes d in
  let h := add64 h (uint64_of_int (total d)) in
  h.

Definition Sum64 (d : Digest) : option (Z * Digest) :=
  let h := h_start d in
  let i := 0 in
  let end_ := n d in
  '(i, h) <- loop8 (mem d) end_ i h ;;
  '(i, h) <- (if add_int i 4 <=? end_ then
                s <- array_slice (mem d) i (add_int i 4) ;;
                w <- u32 s ;;
                let h := fold4 h w in
                let i := add_int i 4 in
                Some (i, h)
              else Some (i, h)) ;;
  h <- loop1 (mem d) end_ i h ;;
  let h := avalanche h in
  Some (h, d).

(** ** The finalization and the one-shot hash, as the spec words them *)

(** Spec 4.4, tier (a): while at least 8 bytes remain, XOR [h] with
    [round(0, word64)] and set [h = rotl(h,27)*PRIME1 + PRIME4]. *)
Definition tier8_step (h w : Z) : Z :=
  (rotl (Z.lxor h (round 0 w)) 27 * prime1 + prime4) mod 2 ^ 64.

Fixpoint tier8 (h : Z) (l : list byte) : Z * list byte :=
  match l with
  | b0 :: b1 :: b2 :: b3 :: b4 :: b5 :: b6 :: b7 :: r =>
      tier8 (tier8_step h (le_uint [b0; b1; b2; b3; b4; b5; b6; b7])) r
  | _ => (h, l)
  end.

(** Tier (b): if exactly 4 to 7 bytes remain, XOR [h] with
    [word32 * PRIME1] and set [h = rotl(h,23)*PRIME2 + PRIME3]. *)
Definition tier4_step (h w : Z) : Z :=
  (rotl (Z.lxor h ((w * prime1) mod 2 ^ 64)) 23 * prime2 + prime3) mod 2 ^ 64.

Definition tier4 (h : Z) (l : list byte) : Z * list byte :=
  if (4 <=? len l) && (len l <=? 7)
  then (tier4_step h (le_uint (firstn 4 l)), skipn 4 l)
  else (h, l).

(** Tier (c): for each remaining byte, XOR [h] with [byte * PRIME5] and
    set [h = rotl(h,11)*PRIME1]. *)
Definition tier1_step (h : Z) (x : byte) : Z :=
  (rotl (Z.lxor h ((byte_val x * prime5) mod 2 ^ 64)) 11 * prime1) mod 2 ^ 64.

Definition tier1 (h : Z) (l : list byte) : Z := fold_left tier1_step l h.

Definition fold_tail_spec (h : Z) (l : list byte) : Z :=
  let '(h, l) := tier8 h l in
  let '(h, l) := tier4 h l in
  tier1 h l.

(** The avalanche: [h ^= h>>33; h *= PRIME2; h ^= h>>29; h *= PRIME3;
    h ^= h>>32]. *)
Definition avalanche_spec (h : Z) : Z :=
  let h := Z.lxor h (Z.shiftr h 33) in
  let h := (h * prime2) mod 2 ^ 64 in
  let h := Z.lxor h (Z.shiftr h 29) in
  let h := (h * prime3) mod 2 ^ 64 in
  Z.lxor h (Z.shiftr h 32).

(** Spec 4.4 as a whole, over the lanes, the byte count and the pending
    tail. *)
Definition finalize_spec (a b c e : Z) (count : Z) (tail : list byte) : Z :=
  let h :=
    if 32 <=? count
    then mergeRound (mergeRound (mergeRound (mergeRound
           ((rotl a 1 + rotl b 7 + rotl c 12 + rotl e 18) mod 2 ^ 64)
           a) b) c) e
    else (c + prime5) mod 2 ^ 64 in
  let h := (h + count) mod 2 ^ 64 in
  avalanche_spec (fold_tail_spec h tail).

(** Modelled from the spec: the one-shot [sum64] is defined in a file of
    the package that is not part of the sources at hand.  The spec (section
    4.5) has it seed the lanes as [Reset] does, run block processing over
    the input to consume all full 32-byte blocks, then apply the
    finalization of section 4.4 with the untouched tail as the carry
    contents and the full input length as the count. *)
Definition sum64 (b : list byte) : Z :=
  let '(d, nw) := writeBlocks New b in
  let tail := skipn (Z.to_nat nw) b in
  finalize_spec (v1 d) (v2 d) (v3 d) (v4 d) (len b) tail.

(** The package-level [Sum64(b)] (xxhash.go, lines 32-34). *)
Definition Sum64_bytes (b : list byte) : Z := sum64 b.

(** ** Sequences of calls on one digest *)

Inductive call : Type :=
| CallNew
| CallReset
| CallWrite (b : list byte)
| CallSum64.

Definition do_call (d : Digest) (c : call) : option Digest :=
  match c with
  | CallNew => Some New
  | CallReset => Some (Reset d)
  | CallWrite b => option_map snd (Write d b)
  | CallSum64 => option_map snd (Sum64 d)
  end.

Fixpoint run (d : Digest) (cs : list call) : option Digest :=
  match cs with
  | [] => Some d
  | c :: r => d' <- do_call d c ;; run d' r
  end.


(** Every byte count along the way is one an [int] holds. *)
Fixpoint counts_fit (acc : Z) (cs : list call) : Prop :=
  match cs with
  | [] => True
  | CallNew :: r => counts_fit 0 r
  | CallReset :: r => counts_fit 0 r
  | CallWrite b :: r => acc + len b <= max_int /\ counts_fit (acc + len b) r
  | CallSum64 :: r => counts_fit acc r
  end.

(** Writing a sequence of chunks in order. *)
Fixpoint write_all (d : Digest) (chunks : list (list byte)) : option Digest :=
  match chunks with
  | [] => Some d
  | c :: r => '(_, d') <- Write d c ;; write_all d' r
  end.

(** ** What a digest has absorbed *)

Definition lanes (d : Digest) : Z * Z * Z * Z := (v1 d, v2 d, v3 d, v4 d).

(** [absorbed B d]: the digest [d] has been fed exactly the bytes [B]
    since it was seeded.  The full blocks of [B] are mixed into the lanes
    and the remainder, shorter than a block, sits at the start of the
    carry buffer. *)
Definition absorbed (B : list byte) (d : Digest) : Prop :=
  exists (q : nat) (blocks tail post : list byte),
    B = blocks ++ tail /\
    length blocks = (32 * q)%nat /\
    (length tail < 32)%nat /\
    mem d = tail ++ post /\
    length (mem d) = 32%nat /\
    n d = len tail /\
    total d = len B /\
    lanes d = lanes (mix_blocks q New blocks).

(** ** The byte count read as an unsigned 64-bit counter *)

(** The reading under which [total] holds any cumulative count up to
    [2^64 - 1]: whenever the count so far and the bytes written now stay
    within that bound, [Write] leaves their sum in [total]. *)
Definition total_counts_to_uint64_max : Prop :=
  forall (d : Digest) (b : list byte),
    length (mem d) = 32%nat -> 0 <= n d < 32 ->
    0 <= total d -> total d + len b <= 2 ^ 64 - 1 ->
    exists r d', Write d b = Some (r, d') /\ total d' = total d + len b.

(** A digest that has counted [2^63 - 1] bytes: 31 of them are pending. *)
Definition digest_at_max_int : Digest :=
  mkDigest (v1 New) (v2 New) (v3 New) (v4 New) max_int (repeat x00 32) 31.

(** A 39-byte test phrase, longer than one block. *)
Definition spammish : list byte :=
  [x4e; x6f; x62; x6f; x64; x79; x20; x69; x6e; x73; x70; x65;
   x63; x74; x73; x20; x74; x68; x65; x20; x73; x70; x61; x6d;
   x6d; x69; x73; x68; x20; x72; x65; x70; x65; x74; x69; x74;
   x69; x6f; x6e].

(** ** Size, BlockSize and Sum (xxhash.go, lines 70-74 and 118-132) *)

Definition Size (d : Digest) : Z := 8.

Definition BlockSize (d : Digest) : Z := 32.

(** The conversion [byte(x)] of a [uint64]: its low 8 bits. *)
Definition byte_of_uint64 (x : Z) : byte :=
  match Byte.of_N (Z.to_N (x mod 256)) with
  | Some c => c
  | None => x00
  end.

(** [Sum] appends the current hash to [b]; [append] is taken by value,
    that is, as the contents of the slice it returns. *)
Definition Sum (d : Digest) (b : list byte) : option (list byte * Digest) :=
  '(s, d) <- Sum64 d ;;
  Some (b ++ [byte_of_uint64 (shr64 s 56);
              byte_of_uint64 (shr64 s 48);
              byte_of_uint64 (shr64 s 40);
              byte_of_uint64 (shr64 s 32);
              byte_of_uint64 (shr64 s 24);
              byte_of_uint64 (shr64 s 16);
              byte_of_uint64 (shr64 s 8);
              byte_of_uint64 s],
        d).

(** Big-endian value of a run of bytes. *)
Definition be_uint (l : list byte) : Z :=
  fold_left (fun acc x => 256 * acc + byte_val x) l 0.

(** ** What a digest shows to its methods *)

(** The pending bytes: the part of the carry buffer in use. *)
Definition pending (d : Digest) : list byte :=
  firstn (Z.to_nat (n d)) (mem d).

(** Two digests with the same lanes, count, carry length and pending
    bytes; they may differ in the unused part of the carry buffer. *)
Definition same_view (d d' : Digest) : Prop :=
  lanes d = lanes d' /\ total d = total d' /\ n d = n d' /\
  pending d = pending d'.

(** The lanes hold [uint64] values. *)
Definition lanes_in_range (d : Digest) : Prop :=
  in_uint64 (v1 d) /\ in_uint64 (v2 d) /\ in_uint64 (v3 d) /\
  in_uint64 (v4 d).

(** The bytes passed to [Write] since the last [Reset] or construction,
    in order, starting from [acc]. *)
Fixpoint stream (acc : list byte) (cs : list call) : list byte :=
  match cs with
  | [] => acc
  | CallNew :: r => stream [] r
  | CallReset :: r => stream [] r
  | CallWrite b :: r => stream (acc ++ b) r
  | CallSum64 :: r => stream acc r
  end.

(** ** The resting invariant without a bound on the byte counts *)



(** * Properties *)

(** ** Machine arithmetic *)

Lemma wrap_int_small (x : Z) : in_int x -> wrap_int x = x.
Proof.
  unfold in_int, min_int, max_int, wrap_int. intros Hx.
  rewrite Z.mod_small; lia.
Qed.

Lemma add_int_small (a b : Z) : in_int (a + b) -> add_int a b = a + b.
Proof. apply wrap_int_small. Qed.

Lemma wrap64_small (x : Z) : in_uint64 x -> wrap64 x = x.
Proof. unfold in_uint64, wrap64. intros. apply Z.mod_small. lia. Qed.

Lemma len_app {A} (l r : list A) : len (l ++ r) = len l + len r.
Proof. unfold len. rewrite length_app. lia. Qed.

Lemma len_nonneg {A} (l : list A) : 0 <= len l.
Proof. unfold len. lia. Qed.

(** ** The loops of [Sum64], one iteration at a time *)

(** Rewrites the goal with the case equations that [funelim] leaves in
    the context. *)
Ltac use_case_eqns :=
  repeat match goal with
         | H : ?x = Some _ |- context [?x] => rewrite H
         | H : ?x = None |- context [?x] => rewrite H
         | H : ?x = true |- context [?x] => rewrite H
         | H : ?x = false |- context [?x] => rewrite H
         end;
  cbn [bind].

Lemma loop8_iter (m : list byte) (end_ i h : Z) :
  loop8 m end_ i h =
  if add_int i 8 <=? end_ then
    s <- array_slice m i (add_int i 8) ;;
    w <- u64 s ;;
    loop8 m end_ (add_int i 8) (fold8 h w)
  else Some (i, h).
Proof.
  funelim (loop8 m end_ i h);
    try clear Heqcall;
    repeat match goal with IH : loop8 _ _ _ _ = _ |- _ => clear IH end;
    use_case_eqns; use_case_eqns; reflexivity.
Qed.

Lemma loop1_iter (m : list byte) (end_ i h : Z) :
  loop1 m end_ i h =
  if i <? end_ then
    x <- array_index m i ;;
    loop1 m end_ (add_int i 1) (fold1 h x)
  else Some h.
Proof.
  funelim (loop1 m end_ i h);
    try clear Heqcall;
    repeat match goal with IH : loop1 _ _ _ _ = _ |- _ => clear IH end;
    use_case_eqns; use_case_eqns; reflexivity.
Qed.

(** ** Slices of a list cut in three *)

Lemma skipn_prefix {A} (pre r : list A) : skipn (length pre) (pre ++ r) = r.
Proof. induction pre; simpl; auto. Qed.

Lemma firstn_prefix {A} (s r : list A) : firstn (length s) (s ++ r) = s.
Proof. induction s; simpl; f_equal; auto. Qed.

Lemma array_slice_mid (pre s post : list byte) (lo hi : Z) :
  lo = len pre -> hi = lo + len s -> hi <= 32 ->
  array_slice (pre ++ s ++ post) lo hi = Some s.
Proof.
  intros -> -> Hhi. unfold array_slice, len in *.
  replace ((0 <=? Z.of_nat (length pre))
           && (Z.of_nat (length pre) <=? Z.of_nat (length pre) + Z.of_nat (length s))
           && (Z.of_nat (length pre) + Z.of_nat (length s) <=? 32)) with true.
  2:{ symmetry. rewrite !andb_true_iff, !Z.leb_le. lia. }
  f_equal.
  replace (Z.to_nat (Z.of_nat (length pre) + Z.of_nat (length s) - Z.of_nat (length pre)))
    with (length s) by lia.
  rewrite Nat2Z.id, skipn_prefix. apply firstn_prefix.
Qed.

Lemma array_index_mid (pre post : list byte) (x : byte) (i : Z) :
  i = len pre -> i < 32 ->
  array_index (pre ++ x :: post) i = Some x.
Proof.
  intros -> Hi. unfold array_index, len in *.
  replace ((0 <=? Z.of_nat (length pre)) && (Z.of_nat (length pre) <? 32))
    with true.
  2:{ symmetry. rewrite andb_true_iff, Z.leb_le, Z.ltb_lt. lia. }
  rewrite Nat2Z.id, nth_error_app2, Nat.sub_diag by lia. reflexivity.
Qed.

Lemma u64_exact (s : list byte) : len s = 8 -> u64 s = Some (le_uint s).
Proof.
  intros Hs. unfold u64. rewrite Hs. cbn [Z.ltb Z.compare Pos.compare Pos.compare_cont].
  rewrite firstn_all2; [ reflexivity | unfold len in Hs; lia ].
Qed.

Lemma u32_exact (s : list byte) : len s = 4 -> u32 s = Some (le_uint s).
Proof.
  intros Hs. unfold u32. rewrite Hs. cbn [Z.ltb Z.compare Pos.compare Pos.compare_cont].
  rewrite firstn_all2; [ reflexivity | unfold len in Hs; lia ].
Qed.

(** ** The code's folding steps are the spec's *)

Lemma fold8_tier8_step (h w : Z) : fold8 h w = tier8_step h w.
Proof.
  unfold fold8, tier8_step, add64, mul64, wrap64, xor64, rol27.
  apply Z.add_mod_idemp_l. lia.
Qed.

Lemma fold4_tier4_step (h w : Z) : fold4 h w = tier4_step h w.
Proof.
  unfold fold4, tier4_step, add64, mul64, wrap64, xor64, rol23.
  apply Z.add_mod_idemp_l. lia.
Qed.

Lemma fold1_tier1_step (h : Z) (x : byte) : fold1 h x = tier1_step h x.
Proof. reflexivity. Qed.

Lemma avalanche_avalanche_spec (h : Z) : avalanche h = avalanche_spec h.
Proof. reflexivity. Qed.

(** ** The index loops against the tiers *)

Lemma tier8_short (h : Z) (l : list byte) :
  len l < 8 -> tier8 h l = (h, l).
Proof.
  unfold len. intros Hl.
  do 8 (destruct l as [ | ? l ]; [ reflexivity | ]).
  simpl in Hl. lia.
Qed.

Lemma tier8_rest (l : list byte) :
  forall h, exists c,
    l = c ++ snd (tier8 h l) /\ len (snd (tier8 h l)) < 8.
Proof.
  remember (length l) as k eqn:Hk.
  assert (Hle : (length l <= k)%nat) by lia. clear Hk.
  revert l Hle. induction k as [ | k IH ]; intros l Hle h.
  - destruct l; [ | simpl in Hle; lia ]. exists []. split; [ reflexivity | ].
    cbn. lia.
  - destruct (Z_lt_le_dec (len l) 8) as [Hs | Hs].
    + rewrite tier8_short by assumption. exists []. split; [ reflexivity | ].
      exact Hs.
    + unfold len in Hs.
      do 8 (destruct l as [ | ? l ]; [ simpl in Hs; lia | ]).
      cbn [tier8].
      match goal with
      | |- context [tier8 ?h' l] =>
          destruct (IH l ltac:(simpl in Hle; lia) h') as (c & Hc & Hlt)
      end.
      eexists (_ :: _ :: _ :: _ :: _ :: _ :: _ :: _ :: c).
      split; [ cbn [app]; do 8 f_equal; exact Hc | exact Hlt ].
Qed.

Lemma add_int_len (i k : Z) : 0 <= i <= 32 -> 0 <= k <= 32 -> add_int i k = i + k.
Proof.
  intros. apply add_int_small. unfold in_int, min_int, max_int. lia.
Qed.

Lemma loop8_tier8 (l : list byte) :
  forall pre post h,
    len pre + len l <= 32 ->
    loop8 (pre ++ l ++ post) (len pre + len l) (len pre) h =
    Some (len pre + len l - len (snd (tier8 h l)), fst (tier8 h l)).
Proof.
  remember (length l) as k eqn:Hk.
  assert (Hle : (length l <= k)%nat) by lia. clear Hk.
  revert l Hle. induction k as [ | k IH ]; intros l Hle pre post h Hfit;
    rewrite loop8_iter;
    pose proof (len_nonneg pre) as Hpre; pose proof (len_nonneg l) as Hl.
  - destruct l; [ | simpl in Hle; lia ].
    rewrite add_int_len by (cbn in *; lia).
    replace (len pre + 8 <=? len pre + len []) with false
      by (symmetry; apply Z.leb_gt; cbn; lia).
    cbn. do 2 f_equal. lia.
  - destruct (Z_lt_le_dec (len l) 8) as [Hs | Hs].
    + rewrite add_int_len by lia.
      replace (len pre + 8 <=? len pre + len l) with false
        by (symmetry; apply Z.leb_gt; lia).
      rewrite tier8_short by assumption. cbn [fst snd]. do 2 f_equal. lia.
    + rewrite add_int_len by lia.
      replace (len pre + 8 <=? len pre + len l) with true
        by (symmetry; apply Z.leb_le; lia).
      unfold len in Hs.
      do 8 (destruct l as [ | ? l ]; [ simpl in Hs; lia | ]).
      match goal with
      | |- context [pre ++ (?b0 :: ?b1 :: ?b2 :: ?b3 :: ?b4 :: ?b5 :: ?b6 :: ?b7 :: l) ++ post] =>
          set (w := [b0; b1; b2; b3; b4; b5; b6; b7]);
          change (pre ++ (b0 :: b1 :: b2 :: b3 :: b4 :: b5 :: b6 :: b7 :: l) ++ post)
            with (pre ++ w ++ (l ++ post));
          change (tier8 h (b0 :: b1 :: b2 :: b3 :: b4 :: b5 :: b6 :: b7 :: l))
            with (tier8 (tier8_step h (le_uint w)) l);
          change (len (b0 :: b1 :: b2 :: b3 :: b4 :: b5 :: b6 :: b7 :: l))
            with (len (w ++ l)) in *
      end.
      rewrite len_app in *. change (len w) with 8 in *.
      pose proof (len_nonneg l) as Hl'.
      rewrite (array_slice_mid pre w (l ++ post))
        by (change (len w) with 8; lia).
      cbn [bind]. rewrite (u64_exact w) by reflexivity. cbn [bind].
      rewrite fold8_tier8_step.
      replace (pre ++ w ++ l ++ post) with ((pre ++ w) ++ l ++ post)
        by (rewrite <- app_assoc; reflexivity).
      replace (len pre + 8) with (len (pre ++ w))
        by (rewrite len_app; reflexivity).
      replace (len pre + (8 + len l)) with (len (pre ++ w) + len l)
        by (rewrite len_app; change (len w) with 8; lia).
      apply IH.
      * simpl in Hle. lia.
      * rewrite len_app. change (len w) with 8. lia.
Qed.

Lemma loop1_tier1 (l : list byte) :
  forall pre post h,
    len pre + len l <= 32 ->
    loop1 (pre ++ l ++ post) (len pre + len l) (len pre) h =
    Some (tier1 h l).
Proof.
  induction l as [ | x l IH ]; intros pre post h Hfit;
    rewrite loop1_iter; pose proof (len_nonneg pre) as Hpre.
  - replace (len pre <? len pre + len []) with false
      by (symmetry; apply Z.ltb_ge; cbn; lia).
    reflexivity.
  - pose proof (len_nonneg l) as Hl.
    change (x :: l) with ([x] ++ l) in *. rewrite len_app in *.
    change (len [x]) with 1 in *.
    replace (len pre <? len pre + (1 + len l)) with true
      by (symmetry; apply Z.ltb_lt; lia).
    rewrite <- app_assoc. cbn [app].
    rewrite array_index_mid by (reflexivity || lia). cbn [bind].
    rewrite add_int_len by lia.
    replace (pre ++ x :: l ++ post) with ((pre ++ [x]) ++ l ++ post)
      by (rewrite <- app_assoc; reflexivity).
    replace (len pre + 1) with (len (pre ++ [x]))
      by (rewrite len_app; reflexivity).
    replace (len pre + (1 + len l)) with (len (pre ++ [x]) + len l)
      by (rewrite len_app; change (len [x]) with 1; lia).
    rewrite IH by (rewrite len_app; change (len [x]) with 1; lia).
    reflexivity.
Qed.

(** [Sum64] on a digest whose carry buffer starts with the pending bytes
    [l]. *)
Lemma Sum64_pending (d : Digest) (l post : list byte) :
  mem d = l ++ post -> n d = len l -> len l <= 32 ->
  Sum64 d = Some (avalanche_spec (fold_tail_spec (h_start d) l), d).
Proof.
  intros Hm Hn Hfit. unfold Sum64, fold_tail_spec.
  rewrite Hm, Hn.
  pose proof (loop8_tier8 l [] post (h_start d)) as H8.
  change (len []) with 0 in H8. rewrite Z.add_0_l in H8.
  cbn [app] in H8. rewrite H8 by lia. clear H8. cbn [bind].
  destruct (tier8_rest l (h_start d)) as (c & Hc & Hr).
  destruct (tier8 (h_start d) l) as [h1 rest] eqn:E8. cbn [fst snd] in *.
  pose proof (len_nonneg c) as Hc0. pose proof (len_nonneg rest) as Hr0.
  assert (Hl : len l = len c + len rest) by (rewrite Hc at 1; apply len_app).
  replace (len l - len rest) with (len c) by lia.
  rewrite add_int_len by lia.
  unfold tier4.
  destruct (Z_lt_le_dec (len rest) 4) as [H4 | H4].
  - replace (len c + 4 <=? len l) with false
      by (symmetry; apply Z.leb_gt; lia).
    replace ((4 <=? len rest) && (len rest <=? 7)) with false
      by (symmetry; apply andb_false_iff; left; apply Z.leb_gt; lia).
    cbn [bind]. rewrite Hc at 1. rewrite <- app_assoc, Hl.
    rewrite loop1_tier1 by lia. reflexivity.
  - replace (len c + 4 <=? len l) with true
      by (symmetry; apply Z.leb_le; lia).
    replace ((4 <=? len rest) && (len rest <=? 7)) with true
      by (symmetry; apply andb_true_iff; rewrite !Z.leb_le; lia).
    assert (Hw : len (firstn 4 rest) = 4).
    { unfold len in *. rewrite length_firstn. lia. }
    assert (Hrest : rest = firstn 4 rest ++ skipn 4 rest)
      by (symmetry; apply firstn_skipn).
    assert (Hsk : len rest = 4 + len (skipn 4 rest)).
    { rewrite Hrest at 1. rewrite len_app. lia. }
    pose proof (len_nonneg (skipn 4 rest)) as Hsk0.
    assert (Hmem : l ++ post
                   = c ++ firstn 4 rest ++ (skipn 4 rest ++ post)).
    { rewrite Hc at 1. rewrite Hrest at 1. rewrite <- !app_assoc. reflexivity. }
    rewrite Hmem at 1.
    rewrite (array_slice_mid c (firstn 4 rest) (skipn 4 rest ++ post))
      by lia.
    cbn [bind]. rewrite u32_exact by assumption. cbn [bind].
    rewrite fold4_tier4_step.
    replace (l ++ post)
      with ((c ++ firstn 4 rest) ++ skipn 4 rest ++ post)
      by (rewrite Hmem, <- !app_assoc; reflexivity).
    replace (len c + 4) with (len (c ++ firstn 4 rest))
      by (rewrite len_app; lia).
    replace (len l) with (len (c ++ firstn 4 rest) + len (skipn 4 rest))
      by (rewrite len_app; lia).
    rewrite loop1_tier1 by (rewrite len_app; lia).
    reflexivity.
Qed.

(** C3: on a digest at rest, [Sum64] folds the [n] pending bytes of the
    carry buffer left to right in the three tiers of the spec (8-byte
    words while at least 8 bytes remain, one 4-byte word when 4 to 7
    remain, then single bytes), from the value [h_start] computed before,
    applies the avalanche and returns the result; all arithmetic is modulo
    2^64. *)
Theorem Sum64_three_tiers (d : Digest) :
  length (mem d) = 32%nat -> 0 <= n d < 32 ->
  Sum64 d =
  Some (avalanche_spec
          (fold_tail_spec (h_start d) (firstn (Z.to_nat (n d)) (mem d))),
        d).
Proof.
  intros Hm Hn.
  apply (Sum64_pending d _ (skipn (Z.to_nat (n d)) (mem d))).
  - symmetry. apply firstn_skipn.
  - unfold len. rewrite length_firstn. lia.
  - unfold len. rewrite length_firstn. lia.
Qed.

(** ** Block mixing *)

Lemma mix_blocks_frame (k : nat) :
  forall d b,
    total (mix_blocks k d b) = total d /\
    mem (mix_blocks k d b) = mem d /\
    n (mix_blocks k d b) = n d.
Proof.
  induction k as [ | k IH ]; intros d b; cbn [mix_blocks].
  - repeat split.
  - destruct (IH (mix_block d (firstn 32 b)) (skipn 32 b)) as (Ht & Hm & Hn).
    rewrite Ht, Hm, Hn. repeat split.
Qed.

Lemma mix_block_lanes (d d' : Digest) (blk : list byte) :
  lanes d = lanes d' -> lanes (mix_block d blk) = lanes (mix_block d' blk).
Proof.
  unfold lanes, mix_block, set_lanes. cbn. intros H.
  injection H as -> -> -> ->. reflexivity.
Qed.

Lemma mix_blocks_lanes (k : nat) :
  forall d d' b,
    lanes d = lanes d' -> lanes (mix_blocks k d b) = lanes (mix_blocks k d' b).
Proof.
  induction k as [ | k IH ]; intros d d' b H; cbn [mix_blocks].
  - exact H.
  - apply IH, mix_block_lanes, H.
Qed.

Lemma firstn_app_exact {A} (k : nat) (x y : list A) :
  (k <= length x)%nat -> firstn k (x ++ y) = firstn k x.
Proof.
  intros H. rewrite firstn_app.
  replace (k - length x)%nat with 0%nat by lia.
  cbn. apply app_nil_r.
Qed.

Lemma skipn_app_exact {A} (k : nat) (x y : list A) :
  (k <= length x)%nat -> skipn k (x ++ y) = skipn k x ++ y.
Proof.
  intros H. rewrite skipn_app.
  replace (k - length x)%nat with 0%nat by lia.
  reflexivity.
Qed.

(** Mixing [k1 + k2] blocks is mixing [k1] and then [k2]. *)
Lemma mix_blocks_app (k1 k2 : nat) :
  forall d x y,
    length x = (32 * k1)%nat ->
    mix_blocks (k1 + k2) d (x ++ y) = mix_blocks k2 (mix_blocks k1 d x) y.
Proof.
  induction k1 as [ | k1 IH ]; intros d x y Hx.
  - destruct x; [ reflexivity | simpl in Hx; lia ].
  - cbn [Nat.add mix_blocks].
    rewrite firstn_app_exact, skipn_app_exact by lia.
    apply IH. rewrite length_skipn. lia.
Qed.

(** Only the full blocks are read. *)
Lemma mix_blocks_prefix (k : nat) (d : Digest) (x y : list byte) :
  length x = (32 * k)%nat ->
  mix_blocks k d (x ++ y) = mix_blocks k d x.
Proof.
  intros Hx.
  pose proof (mix_blocks_app k 0 d x y Hx) as H1.
  pose proof (mix_blocks_app k 0 d x [] Hx) as H2.
  rewrite Nat.add_0_r in H1, H2. rewrite app_nil_r in H2.
  rewrite H1, H2. reflexivity.
Qed.

Lemma array_slice_whole (blk : list byte) (lo hi : Z) :
  length blk = 32%nat -> 0 <= lo <= hi -> hi <= 32 ->
  array_slice blk lo hi
  = Some (firstn (Z.to_nat (hi - lo)) (skipn (Z.to_nat lo) blk)) /\
  len (firstn (Z.to_nat (hi - lo)) (skipn (Z.to_nat lo) blk)) = hi - lo.
Proof.
  intros Hb Hlo Hhi. unfold array_slice. split.
  - replace ((0 <=? lo) && (lo <=? hi) && (hi <=? 32)) with true;
      [ reflexivity | ].
    symmetry. rewrite !andb_true_iff, !Z.leb_le. lia.
  - unfold len. rewrite length_firstn, length_skipn. lia.
Qed.

(** On a whole block the code's step (lines 91-94) cannot panic and is the
    block step of the spec. *)
Lemma round_block_mix_block (d : Digest) (blk : list byte) :
  length blk = 32%nat -> round_block d blk = Some (mix_block d blk).
Proof.
  intros Hb. unfold round_block.
  destruct (array_slice_whole blk 0 8 Hb) as [-> L0]; [ lia | lia | ].
  destruct (array_slice_whole blk 8 16 Hb) as [-> L1]; [ lia | lia | ].
  destruct (array_slice_whole blk 16 24 Hb) as [-> L2]; [ lia | lia | ].
  destruct (array_slice_whole blk 24 32 Hb) as [-> L3]; [ lia | lia | ].
  cbn [bind].
  rewrite !u64_exact by assumption. cbn [bind].
  reflexivity.
Qed.

(** ** The steps of [Write] *)

Lemma copy_at_tail (tail post b : list byte) :
  len tail <= 32 ->
  copy_at (tail ++ post) (len tail) b
  = Some (tail
            ++ firstn (Nat.min (32 - length tail) (length b)) b
            ++ skipn (Nat.min (32 - length tail) (length b)) post).
Proof.
  intros Ht. unfold copy_at. pose proof (len_nonneg tail) as H0.
  replace ((0 <=? len tail) && (len tail <=? 32)) with true
    by (symmetry; rewrite andb_true_iff, !Z.leb_le; lia).
  unfold len in *.
  replace (Z.to_nat (32 - Z.of_nat (length tail)))
    with (32 - length tail)%nat by lia.
  rewrite Nat2Z.id, firstn_prefix.
  do 3 f_equal.
  rewrite skipn_app, skipn_all2 by lia.
  cbn [app]. f_equal. lia.
Qed.

(** The first branch of [Write] (lines 81-86) never panics at rest. *)
Lemma Write_small (d : Digest) (b : list byte) :
  0 <= n d <= 32 ->
  (add_int (n d) (len b) <? 32) = true ->
  exists m,
    copy_at (mem d) (n d) b = Some m /\
    Write d b
    = Some ((len b, no_error),
            mkDigest (v1 d) (v2 d) (v3 d) (v4 d)
              (add_int (total d) (len b)) m (add_int (n d) (len b))).
Proof.
  intros Hn Hlt. unfold Write. cbn [n set_total]. rewrite Hlt.
  unfold copy_at. cbn [mem].
  replace ((0 <=? n d) && (n d <=? 32)) with true
    by (symmetry; rewrite andb_true_iff, !Z.leb_le; lia).
  eexists. split; reflexivity.
Qed.

Lemma finish_partial_char (d : Digest) (b tail post : list byte) :
  mem d = tail ++ post -> length (mem d) = 32%nat ->
  n d = len tail -> len tail < 32 -> 32 <= len tail + len b ->
  exists (j : nat) (d1 : Digest) (blk b1 : list byte),
    finish_partial d b = Some (d1, b1) /\
    tail ++ b = blk ++ b1 /\
    length blk = (32 * j)%nat /\
    lanes d1 = lanes (mix_blocks j d blk) /\
    total d1 = total d /\
    length (mem d1) = 32%nat.
Proof.
  intros Hm Hlen Hn Ht Hfill. unfold finish_partial.
  pose proof (len_nonneg tail) as Ht0.
  destruct (Z.eq_dec (len tail) 0) as [Hz | Hz].
  - (* empty carry buffer: nothing to finish *)
    rewrite Hn, Hz. cbn [Z.gtb Z.compare].
    assert (tail = []) as -> by (destruct tail; [ reflexivity | cbn in Hz; lia ]).
    exists 0%nat, d, [], b. repeat split; assumption.
  - replace (n d >? 0) with true
      by (symmetry; rewrite Z.gtb_ltb; apply Z.ltb_lt; lia).
    rewrite Hm, Hn, copy_at_tail by lia. cbn [bind].
    unfold len in *.
    replace (Nat.min (32 - length tail) (length b))
      with (32 - length tail)%nat by lia.
    assert (Hpost : skipn (32 - length tail) post = []).
    { apply skipn_all2. rewrite Hm, length_app in Hlen. lia. }
    rewrite Hpost, app_nil_r.
    set (blk := tail ++ firstn (32 - length tail) b).
    assert (Hblk : length blk = 32%nat).
    { unfold blk. rewrite length_app, length_firstn. lia. }
    cbn [mem set_mem]. rewrite round_block_mix_block by exact Hblk.
    cbn [bind]. cbn [n mix_block set_lanes set_mem]. rewrite Hn.
    replace (sub_int 32 (Z.of_nat (length tail)))
      with (Z.of_nat (32 - length tail)).
    2:{ unfold sub_int. rewrite wrap_int_small; [ lia | ].
        unfold in_int, min_int, max_int. lia. }
    unfold slice_from, len.
    replace ((0 <=? Z.of_nat (32 - length tail))
             && (Z.of_nat (32 - length tail) <=? Z.of_nat (length b)))
      with true
      by (symmetry; rewrite andb_true_iff, !Z.leb_le; lia).
    cbn [bind]. rewrite Nat2Z.id.
    exists 1%nat. eexists. exists blk, (skipn (32 - length tail) b).
    split; [ reflexivity | ].
    split.
    { unfold blk. rewrite <- app_assoc, firstn_skipn. reflexivity. }
    split; [ lia | ].
    split.
    { cbn [mix_blocks]. rewrite firstn_all2 by lia. reflexivity. }
    split; [ reflexivity | exact Hblk ].
Qed.

Lemma full_blocks_char (d : Digest) (b : list byte) :
  exists (k : nat) (x rest : list byte),
    full_blocks d b = Some (mix_blocks k d x, rest) /\
    b = x ++ rest /\
    length x = (32 * k)%nat /\
    (length rest < 32)%nat.
Proof.
  unfold full_blocks.
  destruct (Z_lt_le_dec (len b) 32) as [Hs | Hs].
  - replace (len b >=? 32) with false
      by (symmetry; rewrite Z.geb_leb; apply Z.leb_gt; lia).
    exists 0%nat, [], b. unfold len in Hs. repeat split; lia.
  - replace (len b >=? 32) with true
      by (symmetry; rewrite Z.geb_leb; apply Z.leb_le; lia).
    unfold writeBlocks. set (k := (length b / 32)%nat).
    assert (Hk : (32 * k <= length b)%nat)
      by (apply Nat.Div0.mul_div_le).
    assert (Hr : (length b - 32 * k < 32)%nat).
    { pose proof (Nat.div_mod_eq (length b) 32) as E.
      pose proof (Nat.mod_upper_bound (length b) 32 ltac:(lia)).
      fold k in E. lia. }
    unfold slice_from, len.
    replace ((0 <=? 32 * Z.of_nat k) && (32 * Z.of_nat k <=? Z.of_nat (length b)))
      with true
      by (symmetry; rewrite andb_true_iff, !Z.leb_le; lia).
    cbn [bind].
    replace (Z.to_nat (32 * Z.of_nat k)) with (32 * k)%nat by lia.
    exists k, (firstn (32 * k) b), (skipn (32 * k) b).
    split.
    { rewrite <- (firstn_skipn (32 * k) b) at 1.
      rewrite mix_blocks_prefix; [ reflexivity | ].
      rewrite length_firstn. lia. }
    split; [ symmetry; apply firstn_skipn | ].
    split; [ rewrite length_firstn; lia | rewrite length_skipn; lia ].
Qed.

Lemma store_rest_char (d : Digest) (rest : list byte) :
  length (mem d) = 32%nat -> (length rest <= 32)%nat ->
  exists post,
    store_rest d rest
    = Some (mkDigest (v1 d) (v2 d) (v3 d) (v4 d) (total d)
              (rest ++ post) (len rest)) /\
    length (rest ++ post) = 32%nat.
Proof.
  intros Hm Hr. unfold store_rest.
  pose proof (copy_at_tail [] (mem d) rest) as Hc.
  cbn [app length] in Hc. change (len []) with 0 in Hc.
  rewrite Hc by lia. cbn [bind].
  replace (Nat.min (32 - 0) (length rest)) with (length rest) by lia.
  rewrite firstn_all.
  exists (skipn (length rest) (mem d)). split; [ reflexivity | ].
  rewrite length_app, length_skipn. lia.
Qed.

(** [Write] as a whole: the pending bytes followed by [b] are cut into
    full blocks, which are mixed into the lanes, and a rest shorter than a
    block, which is left at the start of the carry buffer. *)
Lemma Write_char (d : Digest) (b tail post : list byte) :
  mem d = tail ++ post -> length (mem d) = 32%nat ->
  n d = len tail -> len tail < 32 -> len tail + len b <= max_int ->
  exists (k : nat) (x rest post' : list byte) (d' : Digest),
    Write d b = Some ((len b, no_error), d') /\
    tail ++ b = x ++ rest /\
    length x = (32 * k)%nat /\
    (length rest < 32)%nat /\
    mem d' = rest ++ post' /\
    length (mem d') = 32%nat /\
    n d' = len rest /\
    total d' = add_int (total d) (len b) /\
    lanes d' = lanes (mix_blocks k d x).
Proof.
  intros Hm Hlen Hn Ht Hfit.
  pose proof (len_nonneg tail) as Ht0. pose proof (len_nonneg b) as Hb0.
  assert (Hadd : add_int (n d) (len b) = len tail + len b).
  { rewrite Hn. apply add_int_small.
    unfold in_int, min_int, max_int in *. lia. }
  destruct (Z_lt_le_dec (len tail + len b) 32) as [Hs | Hs].
  - destruct (Write_small d b) as (m & Hc & HW).
    { lia. }
    { rewrite Hadd. apply Z.ltb_lt. exact Hs. }
    rewrite Hm, Hn, copy_at_tail in Hc by lia.
    replace (Nat.min (32 - length tail) (length b)) with (length b) in Hc
      by (unfold len in *; lia).
    rewrite firstn_all in Hc. injection Hc as <-.
    exists 0%nat, [], (tail ++ b), (skipn (length b) post). eexists.
    split; [ exact HW | ]. cbn [mem n total lanes v1 v2 v3 v4 mix_blocks].
    split; [ reflexivity | ].
    split; [ reflexivity | ].
    split; [ unfold len in *; rewrite length_app; lia | ].
    split; [ rewrite <- app_assoc; reflexivity | ].
    split.
    { rewrite Hm in Hlen. rewrite !length_app, length_skipn in *.
      unfold len in *. lia. }
    split; [ rewrite Hadd, len_app; reflexivity | ].
    split; reflexivity.
  - unfold Write. cbn [n set_total]. rewrite Hadd.
    replace (len tail + len b <? 32) with false
      by (symmetry; apply Z.ltb_ge; lia).
    set (d0 := set_total d (add_int (total d) (len b))).
    destruct (finish_partial_char d0 b tail post)
      as (j & d1 & blk & b1 & Hfp & Hcut & Hblk & Hl1 & Ht1 & Hm1);
      try assumption.
    rewrite Hfp. cbn [bind].
    destruct (full_blocks_char d1 b1) as (k & x & rest & Hfb & Hb1 & Hx & Hr).
    rewrite Hfb. cbn [bind].
    destruct (mix_blocks_frame k d1 x) as (Ft & Fm & Fn).
    destruct (store_rest_char (mix_blocks k d1 x) rest)
      as (post' & Hst & Hlen');
      [ rewrite Fm; exact Hm1 | lia | ].
    rewrite Hst. cbn [bind].
    exists (j + k)%nat, (blk ++ x), rest, post'. eexists.
    split; [ reflexivity | ]. cbn [mem n total].
    split; [ rewrite Hcut, Hb1, app_assoc; reflexivity | ].
    split; [ rewrite length_app; lia | ].
    split; [ exact Hr | ].
    split; [ reflexivity | ].
    split; [ exact Hlen' | ].
    split; [ reflexivity | ].
    split; [ rewrite Ft, Ht1; reflexivity | ].
    rewrite mix_blocks_app by exact Hblk.
    transitivity (lanes (mix_blocks k d1 x)); [ reflexivity | ].
    apply mix_blocks_lanes. rewrite Hl1.
    apply mix_blocks_lanes. reflexivity.
Qed.

(** ** The streaming invariant *)

Lemma absorbed_New : absorbed [] New.
Proof.
  exists 0%nat, [], [], (repeat x00 32).
  repeat split. cbn. lia.
Qed.

Lemma absorbed_Reset (d : Digest) :
  length (mem d) = 32%nat -> absorbed [] (Reset d).
Proof.
  intros Hm. exists 0%nat, [], [], (mem d).
  repeat split; try assumption. cbn. lia.
Qed.

Lemma absorbed_rest (B : list byte) (d : Digest) :
  absorbed B d ->
  length (mem d) = 32%nat /\ 0 <= n d < 32 /\ n d <= len B /\ total d = len B.
Proof.
  intros (q & blocks & tail & post & HB & Hq & Ht & Hm & Hlen & Hn & Htot & _).
  rewrite Hn, Htot. subst B. rewrite len_app. unfold len in *.
  repeat split; lia.
Qed.

Lemma absorbed_Write (B b : list byte) (d : Digest) :
  absorbed B d -> len B + len b <= max_int ->
  exists d',
    Write d b = Some ((len b, no_error), d') /\ absorbed (B ++ b) d'.
Proof.
  intros (q & blocks & tail & post & HB & Hq & Ht & Hm & Hlen & Hn & Htot & Hl)
         Hfit.
  pose proof (len_nonneg blocks) as Hb0.
  assert (HlenB : len B = len blocks + len tail) by (rewrite HB; apply len_app).
  destruct (Write_char d b tail post)
    as (k & x & rest & post' & d' & HW & Hcut & Hx & Hr & Hm' & Hlen' & Hn'
        & Htot' & Hl');
    try assumption; try (unfold len in *; lia).
  exists d'. split; [ exact HW | ].
  exists (q + k)%nat, (blocks ++ x), rest, post'.
  split; [ rewrite HB, <- !app_assoc, Hcut; reflexivity | ].
  split; [ rewrite length_app; lia | ].
  split; [ exact Hr | ].
  split; [ exact Hm' | ].
  split; [ exact Hlen' | ].
  split; [ exact Hn' | ].
  split.
  { rewrite Htot', Htot, len_app. apply add_int_small.
    pose proof (len_nonneg B). pose proof (len_nonneg b).
    unfold in_int, min_int, max_int in *. lia. }
  rewrite Hl', mix_blocks_app by exact Hq.
  apply mix_blocks_lanes. exact Hl.
Qed.

(** The value of [h] before the tail is folded, as the spec computes it. *)
Lemma h_start_finalize (d : Digest) (l : list byte) :
  avalanche_spec (fold_tail_spec (h_start d) l)
  = finalize_spec (v1 d) (v2 d) (v3 d) (v4 d) (total d) l.
Proof.
  unfold finalize_spec. do 2 f_equal.
  unfold h_start, h_lanes, uint64_of_int, add64, wrap64.
  rewrite Z.add_mod_idemp_r by lia. f_equal. f_equal.
  rewrite Z.geb_leb. destruct (32 <=? total d); [ | reflexivity ].
  unfold rol1, rol7, rol12, rol18.
  rewrite Z.add_mod_idemp_l by lia.
  rewrite <- (Z.add_assoc (_ mod _)), Z.add_mod_idemp_l by lia.
  rewrite Z.add_assoc. reflexivity.
Qed.

Lemma absorbed_Sum64 (B : list byte) (d : Digest) :
  absorbed B d -> Sum64 d = Some (sum64 B, d).
Proof.
  intros (q & blocks & tail & post & HB & Hq & Ht & Hm & Hlen & Hn & Htot & Hl).
  rewrite (Sum64_pending d tail post Hm Hn) by (unfold len; lia).
  rewrite h_start_finalize. do 2 f_equal.
  unfold sum64, writeBlocks.
  assert (Hdiv : (length B / 32 = q)%nat).
  { rewrite HB, length_app, Hq. symmetry.
    apply (Nat.div_unique _ 32 q (length tail)); lia. }
  rewrite Hdiv.
  replace (Z.to_nat (32 * Z.of_nat q)) with (length blocks) by lia.
  rewrite Htot. unfold lanes in Hl. injection Hl as -> -> -> ->.
  subst B. rewrite mix_blocks_prefix by exact Hq.
  rewrite skipn_prefix. reflexivity.
Qed.

Lemma write_all_absorbed (chunks : list (list byte)) :
  forall B d,
    absorbed B d -> len B + len (concat chunks) <= max_int ->
    exists d',
      write_all d chunks = Some d' /\ absorbed (B ++ concat chunks) d'.
Proof.
  induction chunks as [ | c r IH ]; intros B d Habs Hfit; cbn [write_all concat].
  - exists d. rewrite app_nil_r. split; [ reflexivity | exact Habs ].
  - cbn [concat] in Hfit. rewrite len_app in Hfit.
    pose proof (len_nonneg c). pose proof (len_nonneg (concat r)).
    destruct (absorbed_Write B c d Habs) as (d1 & HW & Habs1); [ lia | ].
    rewrite HW. cbn [bind].
    destruct (IH (B ++ c) d1 Habs1) as (d' & Hr & Habs');
      [ rewrite len_app; lia | ].
    exists d'. rewrite app_assoc. split; assumption.
Qed.

(** C1: for every byte sequence and every way of cutting it into chunks,
    writing the chunks in order into a fresh digest and reading [Sum64]
    returns the value of the one-shot hash of the whole sequence.  The
    sequence is a Go slice, so its length is an [int]. *)
Theorem streaming_equals_oneshot (chunks : list (list byte)) :
  len (concat chunks) <= max_int ->
  exists d,
    write_all New chunks = Some d /\
    Sum64 d = Some (Sum64_bytes (concat chunks), d).
Proof.
  intros Hfit.
  destruct (write_all_absorbed chunks [] New absorbed_New) as (d & HW & Habs).
  { change (len []) with 0. lia. }
  exists d. split; [ exact HW | ].
  apply absorbed_Sum64. exact Habs.
Qed.

(** ** Reference values of XXH64 *)

Example Sum64_a :
  option_map fst (d <- write_all New [[x61]] ;; Sum64 d)
  = Some 0xD24EC4F1A98C6E5B.
Proof. vm_compute. reflexivity. Qed.

Example Sum64_abc :
  option_map fst (d <- write_all New [[x61]; [x62; x63]] ;; Sum64 d)
  = Some 0x44BC2CF5AD770999.
Proof. vm_compute. reflexivity. Qed.

Example Sum64_spammish :
  option_map fst
    (d <- write_all New [firstn 20 spammish; skipn 20 spammish] ;; Sum64 d)
  = Some 0xFBCEA83C8A378BF1 /\
  option_map fst (d <- write_all New [spammish] ;; Sum64 d)
  = Some 0xFBCEA83C8A378BF1 /\
  Sum64_bytes spammish = 0xFBCEA83C8A378BF1.
Proof. repeat split; vm_compute; reflexivity. Qed.

(** ** Rotation, round and merge round *)

(** [rotl] moves bit [i - k] (mod 64) of a 64-bit word to position [i]. *)
Lemma rotl_testbit (x k i : Z) :
  in_uint64 x -> 0 < k < 64 -> 0 <= i < 64 ->
  Z.testbit (rotl x k) i = Z.testbit x ((i - k) mod 64).
Proof.
  unfold in_uint64, rotl, wrap64. intros Hx Hk Hi.
  rewrite Z.lor_spec, Z.mod_pow2_bits_low, Z.shiftl_spec, Z.shiftr_spec
    by lia.
  destruct (Z_lt_le_dec i k) as [Hlt | Hge].
  - rewrite (Z.testbit_neg_r x (i - k)) by lia. cbn [orb].
    f_equal. apply (Z.mod_unique _ _ (-1)); lia.
  - replace (Z.testbit x (i + (64 - k))) with false.
    + rewrite orb_false_r. f_equal. symmetry. apply Z.mod_small. lia.
    + symmetry. destruct (Z.eq_dec x 0) as [-> | Hnz].
      * apply Z.testbit_0_l.
      * apply Z.bits_above_log2; [ lia | ].
        assert (Z.log2 x < 64) by (apply Z.log2_lt_pow2; lia). lia.
Qed.

(** C7: [round(acc, input)] is [rotate_left(acc + input * PRIME2, 31) *
    PRIME1] and [mergeRound(acc, val)] is [(acc XOR round(0, val)) * PRIME1
    + PRIME4], all modulo 2^64. *)
Theorem round_mergeRound_formulas (acc input val : Z) :
  round acc input
  = (rotl ((acc + input * prime2) mod 2 ^ 64) 31 * prime1) mod 2 ^ 64 /\
  mergeRound acc val
  = (Z.lxor acc (round 0 val) * prime1 + prime4) mod 2 ^ 64.
Proof.
  unfold round, mergeRound, rol31, add64, mul64, xor64, wrap64. split.
  - rewrite Z.add_mod_idemp_r by lia. reflexivity.
  - rewrite Z.add_mod_idemp_l by lia. reflexivity.
Qed.

(** ** Reset and the empty input *)

(** C6: after [Reset], and after [New], the lanes are
    [(PRIME1 + PRIME2) mod 2^64], [PRIME2], [0] and [2^64 - PRIME1], and
    both [n] and [total] are 0. *)
Theorem Reset_seeds (d : Digest) :
  (v1 (Reset d) = (prime1 + prime2) mod 2 ^ 64 /\
   v2 (Reset d) = prime2 /\
   v3 (Reset d) = 0 /\
   v4 (Reset d) = 2 ^ 64 - prime1 /\
   n (Reset d) = 0 /\
   total (Reset d) = 0) /\
  (v1 New = (prime1 + prime2) mod 2 ^ 64 /\
   v2 New = prime2 /\
   v3 New = 0 /\
   v4 New = 2 ^ 64 - prime1 /\
   n New = 0 /\
   total New = 0).
Proof.
  split; repeat split; vm_compute; reflexivity.
Qed.

Lemma Sum64_after_Reset (d : Digest) :
  Sum64 (Reset d) = Some (0xEF46DB3751D8E999, Reset d).
Proof.
  rewrite (Sum64_pending (Reset d) [] (mem d)).
  - do 2 f_equal.
  - reflexivity.
  - reflexivity.
  - cbn. lia.
Qed.

(** C2: the digest of no bytes is [0xEF46DB3751D8E999]: [Sum64] returns it
    on a freshly constructed digest, on any digest just [Reset], and after
    writing the empty slice to either. *)
Theorem empty_input_digest :
  Sum64 New = Some (0xEF46DB3751D8E999, New) /\
  (forall d, Sum64 (Reset d) = Some (0xEF46DB3751D8E999, Reset d)) /\
  (exists d, Write New [] = Some ((0, no_error), d) /\
             Sum64 d = Some (0xEF46DB3751D8E999, d)) /\
  write_all New [] = Some New.
Proof.
  split; [ apply (Sum64_after_Reset zero_Digest) | ].
  split; [ apply Sum64_after_Reset | ].
  split; [ | reflexivity ].
  exists New. split; [ reflexivity | apply (Sum64_after_Reset zero_Digest) ].
Qed.

(** The one-shot hash of the empty sequence, for the record. *)
Lemma Sum64_bytes_empty : Sum64_bytes [] = 0xEF46DB3751D8E999.
Proof. vm_compute. reflexivity. Qed.

(** ** Write never fails *)

(** When the second branch of [Write] is taken, [n + len(b)] did not
    overflow. *)
Lemma second_branch_fits (k l : Z) :
  0 <= k < 32 -> 0 <= l <= max_int ->
  (add_int k l <? 32) = false -> k + l <= max_int.
Proof.
  unfold add_int, wrap_int, max_int. intros Hk Hl Hb.
  apply Z.ltb_ge in Hb.
  destruct (Z_le_gt_dec (k + l) (2 ^ 63 - 1)) as [ | Hov ]; [ assumption | ].
  exfalso.
  assert (E : (k + l + 2 ^ 63) mod 2 ^ 64 = k + l - 2 ^ 63).
  { symmetry. apply (Z.mod_unique _ _ 1); lia. }
  lia.
Qed.

Lemma Write_returns (d : Digest) (b : list byte) :
  length (mem d) = 32%nat -> 0 <= n d < 32 -> len b <= max_int ->
  exists d',
    Write d b = Some ((len b, no_error), d') /\
    total d' = add_int (total d) (len b).
Proof.
  intros Hm Hn Hb. pose proof (len_nonneg b) as Hb0.
  destruct (add_int (n d) (len b) <? 32) eqn:Hbr.
  - destruct (Write_small d b) as (m & _ & HW); [ lia | exact Hbr | ].
    eexists. split; [ exact HW | reflexivity ].
  - pose proof (second_branch_fits _ _ Hn (conj Hb0 Hb) Hbr) as Hfit.
    destruct (Write_char d b (firstn (Z.to_nat (n d)) (mem d))
                (skipn (Z.to_nat (n d)) (mem d)))
      as (k & x & rest & post' & d' & HW & _ & _ & _ & _ & _ & _ & Ht & _).
    + symmetry. apply firstn_skipn.
    + exact Hm.
    + unfold len. rewrite length_firstn. lia.
    + unfold len. rewrite length_firstn. lia.
    + unfold len. rewrite length_firstn.
      replace (Z.of_nat (Nat.min (Z.to_nat (n d)) (length (mem d))))
        with (n d) by lia.
      exact Hfit.
    + exists d'. split; assumption.
Qed.

(** C4: on a digest at rest, [Write(b)] returns [(len(b), nil)] for every
    slice [b], the empty one included, and adds [len(b)] to [total] (in
    [int] arithmetic, so exactly whenever the sum is an [int]); a
    zero-length write leaves the lanes, the carry buffer and the rest of
    the digest as they were. *)
Theorem Write_accepts_all (d : Digest) (b : list byte) :
  well_typed d -> resting d -> len b <= max_int ->
  exists d',
    Write d b = Some ((len b, no_error), d') /\
    total d' = add_int (total d) (len b) /\
    (in_int (total d + len b) -> total d' = total d + len b) /\
    (b = [] -> d' = d).
Proof.
  intros [Hm Ht Hni] Hn Hb. unfold resting in Hn.
  destruct (Write_returns d b Hm Hn Hb) as (d' & HW & Htot).
  exists d'. split; [ exact HW | ]. split; [ exact Htot | ].
  split.
  - intros Hfit. rewrite Htot. apply add_int_small, Hfit.
  - intros ->. change (len []) with 0 in *.
    destruct (Write_small d []) as (m & Hc & HW').
    { lia. }
    { change (len []) with 0. unfold add_int.
      rewrite Z.add_0_r, wrap_int_small by assumption.
      apply Z.ltb_lt. lia. }
    rewrite HW in HW'. injection HW' as ->.
    unfold copy_at in Hc.
    replace ((0 <=? n d) && (n d <=? 32)) with true in Hc
      by (symmetry; rewrite andb_true_iff, !Z.leb_le; lia).
    rewrite Nat.min_0_r, Nat.add_0_r in Hc. cbn [firstn app] in Hc.
    rewrite firstn_skipn in Hc. injection Hc as <-.
    change (len []) with 0. unfold add_int. rewrite !Z.add_0_r.
    rewrite !wrap_int_small by assumption.
    destruct d; reflexivity.
Qed.

(** C10: on a digest at rest, every slice and index operation of [Write]
    and [Sum64] on the carry buffer and on the input is in bounds,
    whatever the input length: neither call panics. *)
Theorem Write_Sum64_in_bounds (d : Digest) (b : list byte) :
  well_typed d -> resting d -> len b <= max_int ->
  (exists r, Write d b = Some r) /\ (exists r, Sum64 d = Some r).
Proof.
  intros [Hm _ _] Hn Hb. unfold resting in Hn. split.
  - destruct (Write_returns d b Hm Hn Hb) as (d' & HW & _).
    eexists. exact HW.
  - eexists.
    apply (Sum64_pending d (firstn (Z.to_nat (n d)) (mem d))
             (skipn (Z.to_nat (n d)) (mem d))).
    + symmetry. apply firstn_skipn.
    + unfold len. rewrite length_firstn. lia.
    + unfold len. rewrite length_firstn. lia.
Qed.

(** ** Sum64 reads only *)

Lemma Sum64_state (d : Digest) (h : Z) (d' : Digest) :
  Sum64 d = Some (h, d') -> d' = d.
Proof.
  unfold Sum64. intros H.
  destruct (loop8 (mem d) (n d) 0 (h_start d)) as [ [i1 h1] | ];
    [ | discriminate ].
  cbn [bind] in H.
  match type of H with
  | bind ?e _ = _ => destruct e as [ [i2 h2] | ]; [ | discriminate ]
  end.
  cbn [bind] in H.
  destruct (loop1 (mem d) (n d) i2 h2); [ | discriminate ].
  cbn [bind] in H. injection H as _ <-. reflexivity.
Qed.

(** C8: [Sum64] leaves every field of the digest as it was, so a second
    [Sum64] returns the same value and a [Write] after [Sum64] behaves as
    if [Sum64] had not been called. *)
Theorem Sum64_non_destructive (d : Digest) (h : Z) (d' : Digest) :
  Sum64 d = Some (h, d') ->
  d' = d /\
  (v1 d', v2 d', v3 d', v4 d', total d', mem d', n d')
  = (v1 d, v2 d, v3 d, v4 d, total d, mem d, n d) /\
  Sum64 d' = Some (h, d') /\
  (forall b, Write d' b = Write d b).
Proof.
  intros H. pose proof (Sum64_state d h d' H) as ->.
  repeat split; assumption.
Qed.

(** ** The resting invariant along any sequence of calls *)







(** ** The width of the byte count *)

(** One more byte written at [2^63 - 1] bytes: the count wraps to
    [- 2^63], and [Sum64] then takes the branch for fewer than 32 bytes, so
    its value is not the finalization of section 4.4 at the count [2^63]. *)
Lemma Write_digest_at_max_int :
  exists d',
    Write digest_at_max_int [x00] = Some ((1, no_error), d') /\
    total d' = - 2 ^ 63 /\
    n d' = 0 /\
    h_lanes d' = add64 (v3 d') prime5 /\
    option_map fst (Sum64 d')
    <> Some (finalize_spec (v1 d') (v2 d') (v3 d') (v4 d') (2 ^ 63) []).
Proof.
  eexists. split; [ vm_compute; reflexivity | ].
  repeat split. vm_compute. discriminate.
Qed.

(** C9, as stated, fails: [total] is a signed [int], and one more byte
    written to a digest that has counted [2^63 - 1] bytes leaves
    [- 2^63] in [total], not the count [2^63]. *)
Lemma total_not_unsigned64 : ~ total_counts_to_uint64_max.
Proof.
  intros H.
  destruct (H digest_at_max_int [x00]) as (r & d' & HW & Ht).
  - reflexivity.
  - cbn. lia.
  - cbn. lia.
  - cbn. lia.
  - destruct Write_digest_at_max_int as (d1 & HW1 & Ht1 & _).
    rewrite HW1 in HW. injection HW as _ <-.
    rewrite Ht1 in Ht. cbn in Ht. lia.
Qed.

(** C9, amended: [total] is a signed 64-bit [int].  It holds any
    cumulative byte count up to [2^63 - 1], and for such a count the value
    added to [h] in the finalization is that count, in full. *)
Theorem total_counts_to_max_int (d : Digest) (b : list byte) :
  length (mem d) = 32%nat -> 0 <= n d < 32 ->
  0 <= total d -> total d + len b <= max_int ->
  exists d',
    Write d b = Some ((len b, no_error), d') /\
    total d' = total d + len b /\
    uint64_of_int (total d') = total d + len b /\
    h_start d' = add64 (h_lanes d') (total d + len b).
Proof.
  intros Hm Hn Ht Hfit. pose proof (len_nonneg b) as Hb0.
  destruct (Write_returns d b Hm Hn) as (d' & HW & Htot); [ lia | ].
  assert (E : total d' = total d + len b).
  { rewrite Htot. apply add_int_small.
    unfold in_int, min_int, max_int in *. lia. }
  exists d'. split; [ exact HW | ]. split; [ exact E | ].
  assert (U : uint64_of_int (total d') = total d + len b).
  { rewrite E. apply wrap64_small. unfold in_uint64, max_int in *. lia. }
  split; [ exact U | ].
  unfold h_start. rewrite U. reflexivity.
Qed.

(** * The theorems at concrete inputs *)

Lemma streaming_equals_oneshot_witness :
  len (concat [repeat x01 31; repeat x02 2; []; repeat x03 40]) <= max_int /\
  exists d,
    write_all New [repeat x01 31; repeat x02 2; []; repeat x03 40] = Some d /\
    Sum64 d
    = Some (Sum64_bytes
              (concat [repeat x01 31; repeat x02 2; []; repeat x03 40]), d).
Proof.
  assert (H : len (concat [repeat x01 31; repeat x02 2; []; repeat x03 40])
              <= max_int) by (vm_compute; discriminate).
  split; [ exact H | ].
  exact (streaming_equals_oneshot
           [repeat x01 31; repeat x02 2; []; repeat x03 40] H).
Defined.

Lemma Sum64_three_tiers_witness :
  let d := mkDigest (v1 New) (v2 New) (v3 New) (v4 New) 13
             ([x61; x62; x63; x64; x65; x66; x67; x68; x69; x6a; x6b; x6c;
               x6d] ++ repeat x00 19) 13 in
  Sum64 d
  = Some (avalanche_spec
            (fold_tail_spec (h_start d)
               [x61; x62; x63; x64; x65; x66; x67; x68; x69; x6a; x6b; x6c;
                x6d]), d).
Proof.
  intros d.
  apply (Sum64_three_tiers d); [ reflexivity | cbn; lia ].
Defined.

Lemma Write_accepts_all_witness :
  exists d',
    Write New [x61; x62; x63] = Some ((3, no_error), d') /\
    total d' = add_int (total New) 3 /\
    (in_int (total New + 3) -> total d' = total New + 3) /\
    ([x61; x62; x63] = [] -> d' = New).
Proof.
  apply (Write_accepts_all New [x61; x62; x63]).
  - constructor; [ reflexivity | | ]; unfold in_int, min_int, max_int; cbn; lia.
  - unfold resting. cbn. lia.
  - unfold max_int. cbn. lia.
Defined.


Lemma Sum64_non_destructive_witness :
  New = New /\
  (v1 New, v2 New, v3 New, v4 New, total New, mem New, n New)
  = (v1 New, v2 New, v3 New, v4 New, total New, mem New, n New) /\
  Sum64 New = Some (0xEF46DB3751D8E999, New) /\
  (forall b, Write New b = Write New b).
Proof.
  apply (Sum64_non_destructive New 0xEF46DB3751D8E999 New).
  vm_compute. reflexivity.
Defined.

Lemma total_counts_to_max_int_witness :
  exists d',
    Write New [x00; x01] = Some ((2, no_error), d') /\
    total d' = 0 + 2 /\
    uint64_of_int (total d') = 0 + 2 /\
    h_start d' = add64 (h_lanes d') (0 + 2).
Proof.
  apply (total_counts_to_max_int New [x00; x01]).
  - reflexivity.
  - cbn. lia.
  - cbn. lia.
  - unfold max_int. cbn. lia.
Defined.

Lemma Write_Sum64_in_bounds_witness :
  (exists r, Write New (repeat xff 70) = Some r) /\
  (exists r, Sum64 New = Some r).
Proof.
  apply (Write_Sum64_in_bounds New (repeat xff 70)).
  - constructor; [ reflexivity | | ]; unfold in_int, min_int, max_int; cbn; lia.
  - unfold resting. cbn. lia.
  - unfold max_int. cbn. lia.
Defined.

(** * More of the package *)

(** ** Values stay 64-bit *)

Lemma wrap_int_in_int (x : Z) : in_int (wrap_int x).
Proof.
  unfold in_int, min_int, max_int, wrap_int.
  pose proof (Z.mod_pos_bound (x + 2 ^ 63) (2 ^ 64)). lia.
Qed.

Lemma wrap64_in_uint64 (x : Z) : in_uint64 (wrap64 x).
Proof. unfold in_uint64, wrap64. apply Z.mod_pos_bound. lia. Qed.

Lemma lxor_in_uint64 (a b : Z) :
  in_uint64 a -> in_uint64 b -> in_uint64 (Z.lxor a b).
Proof.
  unfold in_uint64. intros Ha Hb.
  assert (H0 : 0 <= Z.lxor a b) by (apply Z.lxor_nonneg; lia).
  split; [ exact H0 | ].
  destruct (Z.eq_dec (Z.lxor a b) 0) as [-> | Hnz]; [ lia | ].
  apply Z.log2_lt_pow2; [ lia | ].
  pose proof (Z.log2_lxor a b ltac:(lia) ltac:(lia)) as Hl.
  assert (La : Z.log2 a < 64).
  { destruct (Z.eq_dec a 0) as [-> | ]; [ cbn; lia | ].
    apply Z.log2_lt_pow2; lia. }
  assert (Lb : Z.log2 b < 64).
  { destruct (Z.eq_dec b 0) as [-> | ]; [ cbn; lia | ].
    apply Z.log2_lt_pow2; lia. }
  lia.
Qed.

Lemma shr64_in_uint64 (a k : Z) :
  in_uint64 a -> 0 <= k -> in_uint64 (shr64 a k).
Proof.
  unfold in_uint64, shr64. intros Ha Hk.
  rewrite Z.shiftr_div_pow2 by lia.
  assert (0 < 2 ^ k) by (apply Z.pow_pos_nonneg; lia).
  split.
  - apply Z.div_pos; lia.
  - apply Z.le_lt_trans with a; [ | lia ].
    apply Z.div_le_upper_bound; [ lia | ]. nia.
Qed.

Lemma avalanche_in_uint64 (h : Z) : in_uint64 (avalanche h).
Proof.
  unfold avalanche.
  apply lxor_in_uint64; [ | apply shr64_in_uint64; [ | lia ] ];
    apply wrap64_in_uint64.
Qed.

Lemma Sum64_value (d : Digest) (h : Z) (d' : Digest) :
  Sum64 d = Some (h, d') -> exists h0, h = avalanche h0.
Proof.
  unfold Sum64. intros H.
  destruct (loop8 (mem d) (n d) 0 (h_start d)) as [ [i1 h1] | ];
    [ | discriminate ].
  cbn [bind] in H.
  match type of H with
  | bind ?e _ = _ => destruct e as [ [i2 h2] | ]; [ | discriminate ]
  end.
  cbn [bind] in H.
  destruct (loop1 (mem d) (n d) i2 h2) as [ h3 | ]; [ | discriminate ].
  cbn [bind] in H. injection H as <- _. exists h3. reflexivity.
Qed.

Lemma Sum64_value_in_uint64 (d : Digest) (h : Z) (d' : Digest) :
  Sum64 d = Some (h, d') -> in_uint64 h.
Proof.
  intros H. destruct (Sum64_value d h d' H) as (h0 & ->).
  apply avalanche_in_uint64.
Qed.

(** ** Sum: the digest in big-endian bytes *)

Lemma byte_val_byte_of_uint64 (x : Z) :
  byte_val (byte_of_uint64 x) = x mod 256.
Proof.
  unfold byte_val, byte_of_uint64.
  pose proof (Z.mod_pos_bound x 256 ltac:(lia)) as Hx.
  destruct (Byte.of_N (Z.to_N (x mod 256))) as [ c | ] eqn:E.
  - apply Byte.to_of_N in E. rewrite E. lia.
  - apply Byte.of_N_None_iff in E. lia.
Qed.

Lemma be_uint_8_bytes (s : Z) :
  in_uint64 s ->
  be_uint [byte_of_uint64 (shr64 s 56); byte_of_uint64 (shr64 s 48);
           byte_of_uint64 (shr64 s 40); byte_of_uint64 (shr64 s 32);
           byte_of_uint64 (shr64 s 24); byte_of_uint64 (shr64 s 16);
           byte_of_uint64 (shr64 s 8); byte_of_uint64 s] = s.
Proof.
  unfold in_uint64, be_uint. intros Hs. cbn [fold_left].
  rewrite !byte_val_byte_of_uint64. unfold shr64.
  rewrite !Z.shiftr_div_pow2 by lia.
  change (2 ^ 56) with 72057594037927936.
  change (2 ^ 48) with 281474976710656.
  change (2 ^ 40) with 1099511627776.
  change (2 ^ 32) with 4294967296.
  change (2 ^ 24) with 16777216.
  change (2 ^ 16) with 65536.
  change (2 ^ 8) with 256.
  change (2 ^ 64) with 18446744073709551616 in Hs.
  Z.div_mod_to_equations. lia.
Qed.

(** On a digest at rest, [Sum(b)] returns [b] followed by exactly
    [Size()] bytes, which are the value of [Sum64] most significant byte
    first, and leaves the digest as it was. *)
Theorem Sum_appends_big_endian (d : Digest) (b : list byte) :
  length (mem d) = 32%nat -> 0 <= n d < 32 ->
  exists s out,
    Sum64 d = Some (s, d) /\
    Sum d b = Some (out, d) /\
    firstn (length b) out = b /\
    len out = len b + Size d /\
    be_uint (skipn (length b) out) = s.
Proof.
  intros Hm Hn.
  pose proof (Sum64_pending d (firstn (Z.to_nat (n d)) (mem d))
                (skipn (Z.to_nat (n d)) (mem d))) as HS.
  rewrite firstn_skipn in HS. unfold len in HS. rewrite length_firstn in HS.
  specialize (HS eq_refl ltac:(lia) ltac:(lia)).
  eexists. eexists. split; [ exact HS | ].
  unfold Sum. rewrite HS. cbn [bind]. split; [ reflexivity | ].
  split; [ apply firstn_prefix | ].
  split; [ rewrite len_app; reflexivity | ].
  rewrite skipn_prefix. apply be_uint_8_bytes.
  apply (Sum64_value_in_uint64 d _ d HS).
Qed.

(** ** Write, seen through the pending bytes *)

Lemma len_pending (d : Digest) :
  length (mem d) = 32%nat -> 0 <= n d <= 32 -> len (pending d) = n d.
Proof.
  intros Hm Hn. unfold len, pending. rewrite length_firstn. lia.
Qed.

(** A byte string is cut into full blocks and a shorter rest in one way
    only. *)
Lemma cut_unique (x x' r r' : list byte) (k k' : nat) :
  x ++ r = x' ++ r' ->
  length x = (32 * k)%nat -> length x' = (32 * k')%nat ->
  (length r < 32)%nat -> (length r' < 32)%nat ->
  k = k' /\ x = x' /\ r = r'.
Proof.
  intros E Hx Hx' Hr Hr'.
  assert (L : (length x + length r = length x' + length r')%nat)
    by (rewrite <- !length_app, E; reflexivity).
  assert (K : k = k') by lia. subst k'.
  assert (X : x = x').
  { rewrite <- (firstn_prefix x r), E.
    replace (length x) with (length x') by lia. apply firstn_prefix. }
  subst x'. repeat split. apply (app_inv_head _ _ _ E).
Qed.

Lemma Write_view (d : Digest) (b : list byte) :
  length (mem d) = 32%nat -> 0 <= n d < 32 -> n d + len b <= max_int ->
  exists (k : nat) (x : list byte) (d' : Digest),
    Write d b = Some ((len b, no_error), d') /\
    pending d ++ b = x ++ pending d' /\
    length x = (32 * k)%nat /\
    0 <= n d' < 32 /\
    length (mem d') = 32%nat /\
    total d' = add_int (total d) (len b) /\
    lanes d' = lanes (mix_blocks k d x).
Proof.
  intros Hm Hn Hfit.
  pose proof (len_pending d Hm ltac:(lia)) as Hp.
  destruct (Write_char d b (pending d) (skipn (Z.to_nat (n d)) (mem d)))
    as (k & x & rest & post' & d' & HW & Hcut & Hx & Hr & Hm' & Hlen' & Hn'
        & Htot & Hl).
  - symmetry. apply firstn_skipn.
  - exact Hm.
  - symmetry. exact Hp.
  - lia.
  - lia.
  - exists k, x, d'.
    assert (Hpd : pending d' = rest).
    { unfold pending. rewrite Hm', Hn'. unfold len. rewrite Nat2Z.id.
      apply firstn_prefix. }
    rewrite Hpd. unfold len in Hn'. repeat split; try assumption; lia.
Qed.

Lemma h_start_same_view (d d' : Digest) :
  lanes d = lanes d' -> total d = total d' -> h_start d = h_start d'.
Proof.
  unfold lanes, h_start, h_lanes. intros Hl Ht.
  injection Hl as -> -> -> ->. rewrite Ht. reflexivity.
Qed.

Lemma Sum64_by_view (d : Digest) :
  length (mem d) = 32%nat -> 0 <= n d < 32 ->
  Sum64 d
  = Some (avalanche_spec (fold_tail_spec (h_start d) (pending d)), d).
Proof.
  intros Hm Hn.
  apply (Sum64_pending d (pending d) (skipn (Z.to_nat (n d)) (mem d))).
  - symmetry. apply firstn_skipn.
  - symmetry. apply len_pending; [ assumption | lia ].
  - rewrite len_pending; [ lia | assumption | lia ].
Qed.

Lemma Sum64_ignores_unused_buffer_aux (d d' : Digest) :
  length (mem d) = 32%nat -> length (mem d') = 32%nat ->
  0 <= n d < 32 -> same_view d d' ->
  exists h, Sum64 d = Some (h, d) /\ Sum64 d' = Some (h, d').
Proof.
  intros Hm Hm' Hn (Hl & Ht & Hnn & Hp).
  rewrite (Sum64_by_view d Hm Hn).
  rewrite (Sum64_by_view d' Hm') by (rewrite <- Hnn; exact Hn).
  rewrite <- Hp, <- (h_start_same_view d d' Hl Ht).
  eexists. split; reflexivity.
Qed.

(** [Sum64] reads the lanes, the count and the pending bytes only: what
    the carry buffer holds past [n] does not reach the digest. *)
Theorem Sum64_ignores_unused_buffer (d d' : Digest) :
  length (mem d) = 32%nat -> length (mem d') = 32%nat ->
  0 <= n d < 32 -> same_view d d' ->
  exists h, Sum64 d = Some (h, d) /\ Sum64 d' = Some (h, d').
Proof. exact (Sum64_ignores_unused_buffer_aux d d'). Qed.

(** [Write] keeps two digests with the same view in step: the unused part
    of the carry buffer does not influence what a write leaves behind. *)
Theorem Write_respects_view (d d' : Digest) (b : list byte) :
  length (mem d) = 32%nat -> length (mem d') = 32%nat ->
  0 <= n d < 32 -> n d + len b <= max_int -> same_view d d' ->
  exists d1 d1',
    Write d b = Some ((len b, no_error), d1) /\
    Write d' b = Some ((len b, no_error), d1') /\
    same_view d1 d1'.
Proof.
  intros Hm Hm' Hn Hfit (Hl & Ht & Hnn & Hp).
  destruct (Write_view d b Hm Hn Hfit)
    as (k & x & d1 & HW & Hcut & Hx & Hn1 & Hm1 & Ht1 & Hl1).
  destruct (Write_view d' b Hm') as (k' & x' & d1' & HW' & Hcut' & Hx' & Hn1'
                                     & Hm1' & Ht1' & Hl1');
    [ rewrite <- Hnn; exact Hn | rewrite <- Hnn; exact Hfit | ].
  exists d1, d1'. split; [ exact HW | ]. split; [ exact HW' | ].
  rewrite <- Hp, Hcut in Hcut'.
  pose proof (len_pending d1 Hm1 ltac:(lia)) as L1.
  pose proof (len_pending d1' Hm1' ltac:(lia)) as L1'.
  destruct (cut_unique x x' (pending d1) (pending d1') k k' Hcut' Hx Hx')
    as (-> & -> & Hpp); [ unfold len in *; lia | unfold len in *; lia | ].
  unfold same_view. split.
  { rewrite Hl1, Hl1'. apply mix_blocks_lanes. exact Hl. }
  split; [ rewrite Ht1, Ht1', Ht; reflexivity | ].
  split; [ rewrite <- L1, <- L1', Hpp; reflexivity | exact Hpp ].
Qed.

(** After [Write(b)] the carry length is [(n + len(b)) mod BlockSize()],
    and the pending bytes are the end of the old pending bytes followed by
    [b]; a write that does not fill a block leaves the lanes alone and
    only appends to the pending bytes. *)
Theorem Write_carry_length (d : Digest) (b : list byte) :
  length (mem d) = 32%nat -> 0 <= n d < 32 -> n d + len b <= max_int ->
  exists d',
    Write d b = Some ((len b, no_error), d') /\
    n d' = (n d + len b) mod BlockSize d /\
    pending d'
    = skipn (Z.to_nat (n d + len b - n d')) (pending d ++ b) /\
    (n d + len b < BlockSize d ->
     lanes d' = lanes d /\ pending d' = pending d ++ b).
Proof.
  intros Hm Hn Hfit. unfold BlockSize.
  destruct (Write_view d b Hm Hn Hfit)
    as (k & x & d' & HW & Hcut & Hx & Hn' & Hm' & Ht' & Hl').
  pose proof (len_pending d Hm ltac:(lia)) as L.
  pose proof (len_pending d' Hm' ltac:(lia)) as L'.
  assert (Hlen : n d + len b = 32 * Z.of_nat k + n d').
  { rewrite <- L, <- L', <- len_app, Hcut, len_app. unfold len. lia. }
  exists d'. split; [ exact HW | ].
  split; [ apply (Z.mod_unique _ _ (Z.of_nat k)); lia | ].
  split.
  { rewrite Hcut.
    replace (Z.to_nat (n d + len b - n d')) with (length x) by lia.
    symmetry. apply skipn_prefix. }
  intros Hsmall.
  assert (k = 0)%nat by lia. subst k.
  destruct x; [ | simpl in Hx; lia ].
  split; [ exact Hl' | symmetry; exact Hcut ].
Qed.

Lemma add_int_add_int (t x y : Z) :
  add_int (add_int t x) y = add_int t (x + y).
Proof.
  unfold add_int, wrap_int. f_equal.
  replace ((t + x + 2 ^ 63) mod 2 ^ 64 - 2 ^ 63 + y + 2 ^ 63)
    with ((t + x + 2 ^ 63) mod 2 ^ 64 + y) by lia.
  rewrite Z.add_mod_idemp_l by lia. f_equal. lia.
Qed.

(** Writing [a] and then [b] leaves what one write of [a ++ b] leaves:
    the same lanes, count, carry length and pending bytes, hence the same
    digest. *)
Theorem Write_split (d : Digest) (a b : list byte) :
  length (mem d) = 32%nat -> 0 <= n d < 32 ->
  n d + len a + len b <= max_int ->
  exists d1 d2 d12 h,
    Write d a = Some ((len a, no_error), d1) /\
    Write d1 b = Some ((len b, no_error), d2) /\
    Write d (a ++ b) = Some ((len a + len b, no_error), d12) /\
    same_view d2 d12 /\
    Sum64 d2 = Some (h, d2) /\ Sum64 d12 = Some (h, d12).
Proof.
  intros Hm Hn Hfit.
  pose proof (len_nonneg a) as Ha0. pose proof (len_nonneg b) as Hb0.
  destruct (Write_view d a Hm Hn ltac:(lia))
    as (k1 & x1 & d1 & HW1 & Hc1 & Hx1 & Hn1 & Hm1 & Ht1 & Hl1).
  pose proof (len_pending d Hm ltac:(lia)) as L.
  pose proof (len_pending d1 Hm1 ltac:(lia)) as L1.
  assert (Hlen1 : n d + len a = 32 * Z.of_nat k1 + n d1).
  { rewrite <- L, <- L1, <- len_app, Hc1, len_app. unfold len. lia. }
  destruct (Write_view d1 b Hm1 Hn1 ltac:(lia))
    as (k2 & x2 & d2 & HW2 & Hc2 & Hx2 & Hn2 & Hm2 & Ht2 & Hl2).
  destruct (Write_view d (a ++ b) Hm Hn ltac:(rewrite len_app; lia))
    as (k & x & d12 & HW & Hc & Hx & Hn12 & Hm12 & Ht12 & Hl12).
  pose proof (len_pending d2 Hm2 ltac:(lia)) as L2.
  pose proof (len_pending d12 Hm12 ltac:(lia)) as L12.
  assert (E : x ++ pending d12 = (x1 ++ x2) ++ pending d2).
  { rewrite <- Hc, app_assoc, Hc1, <- !app_assoc, Hc2. reflexivity. }
  destruct (cut_unique x (x1 ++ x2) (pending d12) (pending d2) k (k1 + k2) E)
    as (-> & -> & Hpp);
    [ exact Hx | rewrite length_app; lia
    | unfold len in *; lia | unfold len in *; lia | ].
  assert (V : same_view d2 d12).
  { unfold same_view. split.
    { rewrite Hl2, Hl12, mix_blocks_app by exact Hx1.
      apply mix_blocks_lanes. exact Hl1. }
    split; [ rewrite Ht2, Ht1, Ht12, add_int_add_int, len_app; reflexivity | ].
    split; [ rewrite <- L2, <- L12, Hpp; reflexivity | ].
    symmetry. exact Hpp. }
  destruct (Sum64_ignores_unused_buffer_aux d2 d12 Hm2 Hm12 Hn2 V)
    as (h & HS2 & HS12).
  exists d1, d2, d12, h. rewrite len_app in HW.
  split; [ exact HW1 | ]. split; [ exact HW2 | ]. split; [ exact HW | ].
  split; [ exact V | ]. split; assumption.
Qed.

(** ** Write keeps a digest well formed *)

Lemma round_in_uint64 (acc input : Z) : in_uint64 (round acc input).
Proof. unfold round, mul64. apply wrap64_in_uint64. Qed.

Lemma mix_blocks_in_range (k : nat) :
  forall d b, lanes_in_range d -> lanes_in_range (mix_blocks k d b).
Proof.
  induction k as [ | k IH ]; intros d b Hd; cbn [mix_blocks].
  - exact Hd.
  - apply IH. unfold lanes_in_range, mix_block. cbn.
    repeat split; apply round_in_uint64.
Qed.

Lemma lanes_in_range_eq (d d' : Digest) :
  lanes d' = lanes d -> lanes_in_range d -> lanes_in_range d'.
Proof.
  unfold lanes, lanes_in_range. intros H. injection H as -> -> -> ->.
  exact (fun x => x).
Qed.

(** [Write] maps a well-formed digest at rest to a well-formed digest at
    rest: the buffer keeps its 32 bytes, [0 <= n < 32], the count stays an
    [int] and the lanes stay [uint64] values. *)
Theorem Write_preserves_well_formed (d : Digest) (b : list byte) :
  well_typed d -> resting d -> lanes_in_range d ->
  n d + len b <= max_int ->
  exists d',
    Write d b = Some ((len b, no_error), d') /\
    well_typed d' /\ resting d' /\ lanes_in_range d'.
Proof.
  intros [Hm Ht Hni] Hn Hl Hfit. unfold resting in *.
  destruct (Write_view d b Hm Hn Hfit)
    as (k & x & d' & HW & _ & _ & Hn' & Hm' & Ht' & Hl').
  exists d'. split; [ exact HW | ].
  split.
  { constructor; [ exact Hm' | rewrite Ht'; apply wrap_int_in_int | ].
    unfold in_int, min_int, max_int. lia. }
  split; [ exact Hn' | ].
  apply (lanes_in_range_eq _ _ Hl'), mix_blocks_in_range, Hl.
Qed.

(** ** Reset starts over *)

(** A digest that is [Reset] hashes like a new one, whatever it held
    before: for every sequence of chunks both reach the same digest
    value. *)
Theorem Reset_like_New (d : Digest) (chunks : list (list byte)) :
  length (mem d) = 32%nat -> len (concat chunks) <= max_int ->
  exists d1 d2 h,
    write_all (Reset d) chunks = Some d1 /\
    write_all New chunks = Some d2 /\
    Sum64 d1 = Some (h, d1) /\
    Sum64 d2 = Some (h, d2).
Proof.
  intros Hm Hfit.
  destruct (write_all_absorbed chunks [] (Reset d) (absorbed_Reset d Hm))
    as (d1 & HW1 & A1); [ change (len []) with 0; lia | ].
  destruct (write_all_absorbed chunks [] New absorbed_New)
    as (d2 & HW2 & A2); [ change (len []) with 0; lia | ].
  exists d1, d2, (sum64 ([] ++ concat chunks)).
  split; [ exact HW1 | ]. split; [ exact HW2 | ].
  split; apply absorbed_Sum64; assumption.
Qed.

(** Whatever the digest holds, a value [Sum64] returns is a [uint64]. *)
Theorem Sum64_in_uint64 (d : Digest) (h : Z) (d' : Digest) :
  Sum64 d = Some (h, d') -> 0 <= h < 2 ^ 64.
Proof. exact (Sum64_value_in_uint64 d h d'). Qed.

(** ** The mixing steps lose nothing *)

Lemma lor_in_uint64 (a b : Z) :
  in_uint64 a -> in_uint64 b -> in_uint64 (Z.lor a b).
Proof.
  unfold in_uint64. intros Ha Hb.
  assert (H0 : 0 <= Z.lor a b) by (apply Z.lor_nonneg; lia).
  split; [ exact H0 | ].
  destruct (Z.eq_dec (Z.lor a b) 0) as [-> | Hnz]; [ lia | ].
  apply Z.log2_lt_pow2; [ lia | ].
  rewrite Z.log2_lor by lia.
  assert (La : Z.log2 a < 64).
  { destruct (Z.eq_dec a 0) as [-> | ]; [ cbn; lia | ].
    apply Z.log2_lt_pow2; lia. }
  assert (Lb : Z.log2 b < 64).
  { destruct (Z.eq_dec b 0) as [-> | ]; [ cbn; lia | ].
    apply Z.log2_lt_pow2; lia. }
  lia.
Qed.

Lemma rotl_in_uint64 (x k : Z) :
  in_uint64 x -> 0 < k < 64 -> in_uint64 (rotl x k).
Proof.
  intros Hx Hk. unfold rotl. apply lor_in_uint64.
  - apply wrap64_in_uint64.
  - apply (shr64_in_uint64 x (64 - k)); [ exact Hx | lia ].
Qed.

Lemma testbit_high (x i : Z) : in_uint64 x -> 64 <= i -> Z.testbit x i = false.
Proof.
  unfold in_uint64. intros Hx Hi.
  destruct (Z.eq_dec x 0) as [-> | Hnz]; [ apply Z.testbit_0_l | ].
  apply Z.bits_above_log2; [ lia | ].
  assert (Z.log2 x < 64) by (apply Z.log2_lt_pow2; lia). lia.
Qed.

Lemma rotl_inj (x y k : Z) :
  in_uint64 x -> in_uint64 y -> 0 < k < 64 ->
  rotl x k = rotl y k -> x = y.
Proof.
  intros Hx Hy Hk E. apply Z.bits_inj'. intros j Hj.
  destruct (Z_lt_le_dec j 64) as [Hlt | Hge].
  - pose proof (Z.mod_pos_bound (j + k) 64 ltac:(lia)) as Hi.
    assert (Hback : ((j + k) mod 64 - k) mod 64 = j).
    { rewrite Zminus_mod_idemp_l.
      replace (j + k - k) with j by lia. apply Z.mod_small. lia. }
    rewrite <- Hback.
    rewrite <- (rotl_testbit x k ((j + k) mod 64)) by assumption.
    rewrite <- (rotl_testbit y k ((j + k) mod 64)) by assumption.
    rewrite E. reflexivity.
  - rewrite !testbit_high by assumption. reflexivity.
Qed.

Lemma mul64_inj (p q x y : Z) :
  (p * q) mod 2 ^ 64 = 1 -> in_uint64 x -> in_uint64 y ->
  mul64 x p = mul64 y p -> x = y.
Proof.
  unfold in_uint64, mul64, wrap64. intros Hpq Hx Hy E.
  assert (R : forall z, 0 <= z < 2 ^ 64 ->
                        z = (((z * p) mod 2 ^ 64) * q) mod 2 ^ 64).
  { intros z Hz. rewrite Z.mul_mod_idemp_l by lia.
    rewrite <- Z.mul_assoc, <- Z.mul_mod_idemp_r, Hpq by lia.
    rewrite Z.mul_1_r. symmetry. apply Z.mod_small. exact Hz. }
  rewrite (R x Hx), (R y Hy), E. reflexivity.
Qed.

Lemma add64_inj (c x y : Z) :
  in_uint64 x -> in_uint64 y -> add64 x c = add64 y c -> x = y.
Proof.
  unfold in_uint64, add64, wrap64.
  change (2 ^ 64) with 18446744073709551616.
  intros Hx Hy E. Z.div_mod_to_equations. lia.
Qed.

Lemma lxor_inj (a x y : Z) : Z.lxor a x = Z.lxor a y -> x = y.
Proof.
  intros E. apply (f_equal (Z.lxor a)) in E.
  rewrite <- !Z.lxor_assoc, Z.lxor_nilpotent, !Z.lxor_0_l in E. exact E.
Qed.

Lemma lxor_inj_l (a x y : Z) : Z.lxor x a = Z.lxor y a -> x = y.
Proof. rewrite !(Z.lxor_comm _ a). apply lxor_inj. Qed.

Lemma prime1_odd : (prime1 * 614540362697595703) mod 2 ^ 64 = 1.
Proof. reflexivity. Qed.
Lemma prime2_odd : (prime2 * 839798700976720815) mod 2 ^ 64 = 1.
Proof. reflexivity. Qed.
Lemma prime3_odd : (prime3 * 16855272203555305545) mod 2 ^ 64 = 1.
Proof. reflexivity. Qed.
Lemma prime5_odd : (prime5 * 14236653164957433613) mod 2 ^ 64 = 1.
Proof. reflexivity. Qed.

Lemma round_inj_acc (acc acc' input : Z) :
  in_uint64 acc -> in_uint64 acc' ->
  round acc input = round acc' input -> acc = acc'.
Proof.
  intros Ha Ha' E. unfold round, rol31 in E.
  apply (mul64_inj _ _ _ _ prime1_odd) in E;
    [ | apply rotl_in_uint64; [ apply wrap64_in_uint64 | lia ] .. ].
  apply rotl_inj in E; [ | apply wrap64_in_uint64 .. | lia ].
  apply (add64_inj _ _ _ Ha Ha' E).
Qed.

Lemma round_inj_input (acc input input' : Z) :
  in_uint64 input -> in_uint64 input' ->
  round acc input = round acc input' -> input = input'.
Proof.
  intros Hi Hi' E. unfold round, rol31 in E.
  apply (mul64_inj _ _ _ _ prime1_odd) in E;
    [ | apply rotl_in_uint64; [ apply wrap64_in_uint64 | lia ] .. ].
  apply rotl_inj in E; [ | apply wrap64_in_uint64 .. | lia ].
  unfold add64 in E. rewrite !(Z.add_comm acc) in E.
  apply (add64_inj acc) in E; [ | apply wrap64_in_uint64 .. ].
  apply (mul64_inj _ _ _ _ prime2_odd Hi Hi' E).
Qed.

(** [round] is one-to-one in the accumulator and in the input word: a
    lane never forgets what it held or what it was fed. *)
Theorem round_injective (acc acc' input input' : Z) :
  in_uint64 acc -> in_uint64 acc' -> in_uint64 input -> in_uint64 input' ->
  (round acc input = round acc' input -> acc = acc') /\
  (round acc input = round acc input' -> input = input').
Proof.
  intros Ha Ha' Hi Hi'. split.
  - apply round_inj_acc; assumption.
  - apply round_inj_input; assumption.
Qed.

Lemma xorshift_inj (x y s : Z) :
  in_uint64 x -> in_uint64 y -> 0 < s ->
  xor64 x (shr64 x s) = xor64 y (shr64 y s) -> x = y.
Proof.
  unfold xor64, shr64. intros Hx Hy Hs E.
  assert (B : forall (m : nat) (i : Z),
             0 <= i -> 64 - i <= Z.of_nat m ->
             Z.testbit x i = Z.testbit y i).
  { induction m as [ | m IH ]; intros i Hi Hm.
    - rewrite !testbit_high by (assumption || lia). reflexivity.
    - destruct (Z_lt_le_dec i 64) as [Hlt | Hge].
      + pose proof (f_equal (fun z => Z.testbit z i) E) as Ei.
        cbn beta in Ei.
        rewrite !Z.lxor_spec, !Z.shiftr_spec in Ei by lia.
        rewrite (IH (i + s)) in Ei by lia.
        destruct (Z.testbit x i), (Z.testbit y i), (Z.testbit y (i + s));
          cbn in Ei; congruence.
      + rewrite !testbit_high by (assumption || lia). reflexivity. }
  apply Z.bits_inj'. intros i Hi.
  apply (B (Z.to_nat (64 - i)) i Hi). lia.
Qed.

Lemma xorshift_in_uint64 (x s : Z) :
  in_uint64 x -> 0 <= s -> in_uint64 (xor64 x (shr64 x s)).
Proof.
  intros Hx Hs. apply lxor_in_uint64; [ exact Hx | ].
  apply shr64_in_uint64; assumption.
Qed.

Lemma avalanche_inj (h h' : Z) :
  in_uint64 h -> in_uint64 h' -> avalanche h = avalanche h' -> h = h'.
Proof.
  intros Hh Hh' E. unfold avalanche in E.
  apply xorshift_inj in E; [ | apply wrap64_in_uint64 .. | lia ].
  apply (mul64_inj _ _ _ _ prime3_odd) in E;
    [ | apply xorshift_in_uint64; [ apply wrap64_in_uint64 | lia ] .. ].
  apply xorshift_inj in E; [ | apply wrap64_in_uint64 .. | lia ].
  apply (mul64_inj _ _ _ _ prime2_odd) in E;
    [ | apply xorshift_in_uint64; [ assumption | lia ] .. ].
  apply xorshift_inj in E; [ exact E | assumption .. | lia ].
Qed.

(** The avalanche of [Sum64] (lines 168-172) is one-to-one on 64-bit
    values: two different values of [h] never finish as the same
    digest. *)
Theorem avalanche_injective (h h' : Z) :
  0 <= h < 2 ^ 64 -> 0 <= h' < 2 ^ 64 ->
  avalanche h = avalanche h' -> h = h'.
Proof. exact (avalanche_inj h h'). Qed.

(** ** The last byte always counts *)

Lemma byte_val_range (x : byte) : 0 <= byte_val x < 256.
Proof.
  unfold byte_val. pose proof (Byte.to_N_bounded x). lia.
Qed.

Lemma byte_val_inj (x y : byte) : byte_val x = byte_val y -> x = y.
Proof.
  unfold byte_val. intros E. apply N2Z.inj in E.
  pose proof (Byte.of_to_N x) as Hx. rewrite E, Byte.of_to_N in Hx.
  congruence.
Qed.

Lemma le_uint_app (a b : list byte) :
  le_uint (a ++ b) = le_uint a + 256 ^ len a * le_uint b.
Proof.
  induction a as [ | x a IH ]; cbn [app le_uint].
  - change (len []) with 0. lia.
  - rewrite IH. change (x :: a) with ([x] ++ a). rewrite len_app.
    change (len [x]) with 1. rewrite Z.pow_add_r by (pose proof (len_nonneg a); lia).
    lia.
Qed.

Lemma le_uint_range (l : list byte) : 0 <= le_uint l < 256 ^ len l.
Proof.
  induction l as [ | x l IH ]; cbn [le_uint].
  - cbn. lia.
  - change (x :: l) with ([x] ++ l). rewrite len_app.
    change (len [x]) with 1.
    rewrite Z.pow_add_r by (pose proof (len_nonneg l); lia).
    pose proof (byte_val_range x). lia.
Qed.

Lemma le_uint_in_uint64 (l : list byte) : len l <= 8 -> in_uint64 (le_uint l).
Proof.
  intros Hl. pose proof (le_uint_range l) as [H0 H1]. split; [ exact H0 | ].
  apply Z.lt_le_trans with (256 ^ len l); [ exact H1 | ].
  change (2 ^ 64) with (256 ^ 8).
  apply Z.pow_le_mono_r; [ lia | exact Hl ].
Qed.

Lemma le_uint_last_inj (w : list byte) (x y : byte) :
  le_uint (w ++ [x]) = le_uint (w ++ [y]) -> x = y.
Proof.
  rewrite !le_uint_app. cbn [le_uint]. intros E.
  apply byte_val_inj.
  assert (0 < 256 ^ len w)
    by (apply Z.pow_pos_nonneg; [ lia | apply len_nonneg ]).
  nia.
Qed.

Lemma fold8_inj_word (h w w' : Z) :
  in_uint64 h -> in_uint64 w -> in_uint64 w' ->
  fold8 h w = fold8 h w' -> w = w'.
Proof.
  intros Hh Hw Hw' E. unfold fold8, rol27, xor64 in E.
  apply add64_inj in E; [ | apply wrap64_in_uint64 .. ].
  apply (mul64_inj _ _ _ _ prime1_odd) in E;
    [ | apply rotl_in_uint64;
        [ apply lxor_in_uint64; [ exact Hh | apply round_in_uint64 ] | lia ] .. ].
  apply rotl_inj in E;
    [ | apply lxor_in_uint64; [ exact Hh | apply round_in_uint64 ] .. | lia ].
  apply lxor_inj in E.
  apply (round_inj_input 0 w w' Hw Hw' E).
Qed.

Lemma fold4_inj_word (h w w' : Z) :
  in_uint64 h -> in_uint64 w -> in_uint64 w' ->
  fold4 h w = fold4 h w' -> w = w'.
Proof.
  intros Hh Hw Hw' E. unfold fold4, rol23, xor64 in E.
  apply add64_inj in E; [ | apply wrap64_in_uint64 .. ].
  apply (mul64_inj _ _ _ _ prime2_odd) in E;
    [ | apply rotl_in_uint64;
        [ apply lxor_in_uint64; [ exact Hh | apply wrap64_in_uint64 ] | lia ] .. ].
  apply rotl_inj in E;
    [ | apply lxor_in_uint64; [ exact Hh | apply wrap64_in_uint64 ] .. | lia ].
  apply lxor_inj in E.
  apply (mul64_inj _ _ _ _ prime1_odd Hw Hw' E).
Qed.

Lemma fold1_inj_byte (h : Z) (x y : byte) :
  in_uint64 h -> fold1 h x = fold1 h y -> x = y.
Proof.
  intros Hh E. unfold fold1, rol11, xor64 in E.
  apply (mul64_inj _ _ _ _ prime1_odd) in E;
    [ | apply rotl_in_uint64;
        [ apply lxor_in_uint64; [ exact Hh | apply wrap64_in_uint64 ] | lia ] .. ].
  apply rotl_inj in E;
    [ | apply lxor_in_uint64; [ exact Hh | apply wrap64_in_uint64 ] .. | lia ].
  apply lxor_inj in E.
  apply (mul64_inj _ _ _ _ prime5_odd) in E.
  - apply byte_val_inj, E.
  - pose proof (byte_val_range x). unfold in_uint64. lia.
  - pose proof (byte_val_range y). unfold in_uint64. lia.
Qed.

Lemma tier1_in_uint64 (l : list byte) :
  forall h, in_uint64 h -> in_uint64 (tier1 h l).
Proof.
  unfold tier1. induction l as [ | x l IH ]; intros h Hh; cbn [fold_left].
  - exact Hh.
  - apply IH. apply wrap64_in_uint64.
Qed.

Lemma tier1_last (h : Z) (l : list byte) (x : byte) :
  tier1 h (l ++ [x]) = tier1_step (tier1 h l) x.
Proof. unfold tier1. rewrite fold_left_app. reflexivity. Qed.

Lemma tier1_last_inj (h : Z) (l : list byte) (x y : byte) :
  in_uint64 h -> tier1 h (l ++ [x]) = tier1 h (l ++ [y]) -> x = y.
Proof.
  intros Hh E. rewrite !tier1_last, <- !fold1_tier1_step in E.
  apply (fold1_inj_byte _ _ _ (tier1_in_uint64 l h Hh) E).
Qed.

(** Folding a tail that ends in [x] and the same tail ending in [y]. *)
Lemma fold_tail_last_byte (k : nat) :
  forall (p : list byte) (h : Z) (x y : byte),
    (length p <= k)%nat -> in_uint64 h ->
    fold_tail_spec h (p ++ [x]) = fold_tail_spec h (p ++ [y]) -> x = y.
Proof.
  induction k as [ | k IH ]; intros p h x y Hk Hh E.
  - destruct p; [ | simpl in Hk; lia ].
    apply (tier1_last_inj h [] x y Hh E).
  - destruct (le_lt_dec 8 (length p)) as [H8 | H8].
    + (* a full word in front: one step of tier (a), then the rest *)
      do 8 (destruct p as [ | ? p ]; [ simpl in H8; lia | ]).
      match type of E with
      | fold_tail_spec h
          ((?a :: ?b :: ?c :: ?e :: ?f :: ?g :: ?i :: ?j :: p) ++ [x]) = _ =>
          apply (IH p (tier8_step h (le_uint [a; b; c; e; f; g; i; j])) x y);
            [ simpl in Hk; lia | apply wrap64_in_uint64 | exact E ]
      end.
    + destruct (Nat.eq_dec (length p) 7) as [H7 | H7].
      * (* the last byte completes a word *)
        do 7 (destruct p as [ | ? p ]; [ simpl in H7; lia | ]).
        destruct p; [ | simpl in H7; lia ].
        cbn [app] in E.
        match type of E with
        | fold_tail_spec _ ?l = fold_tail_spec _ ?l' =>
            change (tier8_step h (le_uint l) = tier8_step h (le_uint l')) in E
        end.
        rewrite <- !fold8_tier8_step in E.
        apply fold8_inj_word in E;
          [ | exact Hh | apply le_uint_in_uint64; cbn; lia .. ].
        match type of E with
        | le_uint (?a :: ?b :: ?c :: ?e :: ?f :: ?g :: ?i :: [x]) = _ =>
            apply (le_uint_last_inj [a; b; c; e; f; g; i] x y E)
        end.
      * unfold fold_tail_spec in E.
        rewrite !tier8_short in E by (rewrite len_app; unfold len; cbn; lia).
        unfold tier4 in E. rewrite !len_app in E.
        change (len [x]) with 1 in E. change (len [y]) with 1 in E.
        destruct (le_lt_dec 3 (length p)) as [H3 | H3].
        2:{ (* fewer than 4 bytes: single bytes only *)
            replace ((4 <=? len p + 1) && (len p + 1 <=? 7)) with false in E
              by (symmetry; apply andb_false_iff; left; apply Z.leb_gt;
                  unfold len; lia).
            apply (tier1_last_inj h p x y Hh E). }
        replace ((4 <=? len p + 1) && (len p + 1 <=? 7)) with true in E
          by (symmetry; apply andb_true_iff; rewrite !Z.leb_le;
              unfold len; lia).
        destruct (Nat.eq_dec (length p) 3) as [E3 | E3].
        -- (* the last byte completes the 4-byte word *)
           rewrite !firstn_all2, !skipn_all2 in E
             by (rewrite length_app; cbn; lia).
           cbn [tier1 fold_left] in E.
           rewrite <- !fold4_tier4_step in E.
           apply fold4_inj_word in E;
             [ apply (le_uint_last_inj p x y E) | exact Hh
             | apply le_uint_in_uint64; rewrite len_app; unfold len; cbn; lia .. ].
        -- (* the last byte is a single byte after the 4-byte word *)
           rewrite !firstn_app_exact, !skipn_app_exact in E by lia.
           apply tier1_last_inj in E; [ exact E | ].
           apply wrap64_in_uint64.
Qed.

Lemma tier8_in_uint64 (l : list byte) :
  forall h, in_uint64 h -> in_uint64 (fst (tier8 h l)).
Proof.
  remember (length l) as k eqn:Hk.
  assert (Hle : (length l <= k)%nat) by lia. clear Hk.
  revert l Hle. induction k as [ | k IH ]; intros l Hle h Hh.
  - destruct l; [ exact Hh | simpl in Hle; lia ].
  - destruct (Z_lt_le_dec (len l) 8) as [Hs | Hs].
    + rewrite tier8_short by assumption. exact Hh.
    + unfold len in Hs.
      do 8 (destruct l as [ | ? l ]; [ simpl in Hs; lia | ]).
      cbn [tier8]. apply IH; [ simpl in Hle; lia | apply wrap64_in_uint64 ].
Qed.

Lemma fold_tail_in_uint64 (h : Z) (l : list byte) :
  in_uint64 h -> in_uint64 (fold_tail_spec h l).
Proof.
  intros Hh. unfold fold_tail_spec.
  pose proof (tier8_in_uint64 l h Hh) as H8.
  destruct (tier8 h l) as [h1 l1]. cbn [fst] in H8.
  unfold tier4. destruct ((4 <=? len l1) && (len l1 <=? 7)).
  - apply tier1_in_uint64, wrap64_in_uint64.
  - apply tier1_in_uint64, H8.
Qed.

Lemma h_start_in_uint64 (d : Digest) : in_uint64 (h_start d).
Proof. unfold h_start, add64. apply wrap64_in_uint64. Qed.

(** Two writes that differ in their last byte only lead to different
    digests, as long as that byte does not complete a 32-byte block. *)
Theorem Write_last_byte_matters (d : Digest) (c : list byte) (x y : byte) :
  length (mem d) = 32%nat -> 0 <= n d < 32 ->
  n d + len c + 1 <= max_int ->
  (n d + len c + 1) mod 32 <> 0 ->
  x <> y ->
  exists d1 d2 h1 h2,
    Write d (c ++ [x]) = Some ((len c + 1, no_error), d1) /\
    Write d (c ++ [y]) = Some ((len c + 1, no_error), d2) /\
    Sum64 d1 = Some (h1, d1) /\
    Sum64 d2 = Some (h2, d2) /\
    h1 <> h2.
Proof.
  intros Hm Hn Hfit Hmod Hxy.
  pose proof (len_pending d Hm ltac:(lia)) as L.
  assert (Hview : forall z : byte,
    exists (k : nat) (X r : list byte) (d' : Digest),
      Write d (c ++ [z]) = Some ((len c + 1, no_error), d') /\
      pending d ++ c = X ++ r /\ length X = (32 * k)%nat /\
      (length r < 32)%nat /\
      pending d' = r ++ [z] /\ 0 <= n d' < 32 /\
      length (mem d') = 32%nat /\
      total d' = add_int (total d) (len c + 1) /\
      lanes d' = lanes (mix_blocks k d X)).
  { intros z.
    destruct (Write_view d (c ++ [z]) Hm Hn)
      as (k & X & d' & HW & Hcut & HX & Hn' & Hm' & Ht' & Hl').
    { rewrite len_app. change (len [z]) with 1. lia. }
    rewrite len_app in HW, Ht'. change (len [z]) with 1 in HW, Ht'.
    pose proof (len_pending d' Hm' ltac:(lia)) as L'.
    assert (Hlen : n d + len c + 1 = 32 * Z.of_nat k + n d').
    { rewrite <- L, <- L'.
      replace (len (pending d) + len c + 1)
        with (len (pending d ++ c ++ [z]))
        by (rewrite !len_app; change (len [z]) with 1; lia).
      rewrite Hcut, len_app. unfold len. lia. }
    assert (Hne : pending d' <> []).
    { intros Hnil. rewrite Hnil in L'. change (len []) with 0 in L'.
      apply Hmod. symmetry. apply (Z.mod_unique _ _ (Z.of_nat k)); lia. }
    destruct (exists_last Hne) as (r & a & Hr).
    rewrite Hr, !app_assoc in Hcut.
    apply app_inj_tail in Hcut as [Hcut <-].
    exists k, X, r, d'.
    assert (Hrl : (length r < 32)%nat).
    { rewrite Hr, len_app in L'. change (len [z]) with 1 in L'.
      unfold len in L'. lia. }
    repeat split; try assumption; lia. }
  destruct (Hview x) as (k1 & X1 & r1 & d1 & HW1 & Hc1 & HX1 & Hr1 & Hp1 & Hn1
                         & Hm1 & Ht1 & Hl1).
  destruct (Hview y) as (k2 & X2 & r2 & d2 & HW2 & Hc2 & HX2 & Hr2 & Hp2 & Hn2
                         & Hm2 & Ht2 & Hl2).
  rewrite Hc1 in Hc2.
  destruct (cut_unique X1 X2 r1 r2 k1 k2 Hc2 HX1 HX2 Hr1 Hr2)
    as (<- & <- & <-).
  pose proof (Sum64_by_view d1 Hm1 Hn1) as HS1.
  pose proof (Sum64_by_view d2 Hm2 Hn2) as HS2.
  assert (Hh : h_start d2 = h_start d1).
  { apply h_start_same_view; [ rewrite Hl1, Hl2 | rewrite Ht1, Ht2 ];
      reflexivity. }
  rewrite Hp1 in HS1. rewrite Hp2, Hh in HS2.
  do 4 eexists.
  split; [ exact HW1 | ]. split; [ exact HW2 | ].
  split; [ exact HS1 | ]. split; [ exact HS2 | ].
  intros E. apply Hxy.
  apply avalanche_inj in E;
    [ | apply fold_tail_in_uint64, h_start_in_uint64 .. ].
  apply (fold_tail_last_byte (length r1) r1 (h_start d1) x y);
    [ lia | apply h_start_in_uint64 | exact E ].
Qed.

(** ** Any sequence of calls *)

Lemma run_absorbed_stream (cs : list call) :
  forall B d,
    absorbed B d -> counts_fit (len B) cs ->
    exists d', run d cs = Some d' /\ absorbed (stream B cs) d'.
Proof.
  induction cs as [ | c r IH ]; intros B d Habs Hfit.
  - exists d. split; [ reflexivity | exact Habs ].
  - destruct c as [ | | b | ]; cbn [run do_call stream counts_fit] in *.
    + cbn [bind]. apply (IH [] New absorbed_New Hfit).
    + cbn [bind]. apply (IH [] (Reset d)); [ | exact Hfit ].
      apply absorbed_Reset. apply (absorbed_rest B d Habs).
    + destruct Hfit as [Hb Hfit].
      destruct (absorbed_Write B b d Habs Hb) as (d1 & HW & Habs1).
      rewrite HW. cbn [option_map snd bind].
      rewrite <- len_app in Hfit. apply (IH _ _ Habs1 Hfit).
    + rewrite (absorbed_Sum64 B d Habs). cbn [option_map snd bind].
      apply (IH _ _ Habs Hfit).
Qed.

Lemma stream_fits (cs : list call) :
  forall B, len B <= max_int -> counts_fit (len B) cs ->
            len (stream B cs) <= max_int.
Proof.
  induction cs as [ | c r IH ]; intros B HB Hfit.
  - exact HB.
  - destruct c as [ | | b | ]; cbn [stream counts_fit] in *.
    + apply (IH []); [ cbn; unfold max_int; lia | exact Hfit ].
    + apply (IH []); [ cbn; unfold max_int; lia | exact Hfit ].
    + destruct Hfit as [Hb Hfit]. rewrite <- len_app in Hb, Hfit.
      apply (IH _ Hb Hfit).
    + apply (IH _ HB Hfit).
Qed.



(** After any sequence of calls, [Sum64] depends only on the bytes written
    since the last [Reset] or construction: it returns what a new digest
    returns after one [Write] of all those bytes. *)
Theorem digest_depends_on_stream (cs : list call) :
  counts_fit 0 cs ->
  exists d d' h,
    run New cs = Some d /\
    Write New (stream [] cs) = Some ((len (stream [] cs), no_error), d') /\
    Sum64 d = Some (h, d) /\
    Sum64 d' = Some (h, d').
Proof.
  intros Hfit.
  destruct (run_absorbed_stream cs [] New absorbed_New Hfit)
    as (d & Hrun & Habs).
  assert (Hlen : len (stream [] cs) <= max_int).
  { apply stream_fits; [ cbn; unfold max_int; lia | exact Hfit ]. }
  destruct (absorbed_Write [] (stream [] cs) New absorbed_New)
    as (d' & HW & Habs'); [ change (len []) with 0; lia | ].
  exists d, d', (sum64 (stream [] cs)).
  split; [ exact Hrun | ]. split; [ exact HW | ].
  split; apply absorbed_Sum64; assumption.
Qed.

(** ** Merge round *)

(** [mergeRound] is one-to-one in the running hash and in the lane it
    folds in. *)
Theorem mergeRound_injective (acc acc' val val' : Z) :
  in_uint64 acc -> in_uint64 acc' -> in_uint64 val -> in_uint64 val' ->
  (mergeRound acc val = mergeRound acc' val -> acc = acc') /\
  (mergeRound acc val = mergeRound acc val' -> val = val').
Proof.
  intros Ha Ha' Hv Hv'. unfold mergeRound, xor64. split; intros E.
  - apply add64_inj in E; [ | apply wrap64_in_uint64 .. ].
    apply (mul64_inj _ _ _ _ prime1_odd) in E;
      [ | apply lxor_in_uint64; [ assumption | apply round_in_uint64 ] .. ].
    apply (lxor_inj_l _ _ _ E).
  - apply add64_inj in E; [ | apply wrap64_in_uint64 .. ].
    apply (mul64_inj _ _ _ _ prime1_odd) in E;
      [ | apply lxor_in_uint64; [ assumption | apply round_in_uint64 ] .. ].
    apply lxor_inj in E.
    apply (round_inj_input 0 val val' Hv Hv' E).
Qed.

(** * These properties at concrete inputs *)

Lemma Sum_appends_big_endian_witness :
  exists s out,
    Sum64 New = Some (s, New) /\
    Sum New [x01; x02] = Some (out, New) /\
    firstn (length [x01; x02]) out = [x01; x02] /\
    len out = len [x01; x02] + Size New /\
    be_uint (skipn (length [x01; x02]) out) = s.
Proof.
  apply (Sum_appends_big_endian New [x01; x02]); [ reflexivity | cbn; lia ].
Defined.

Lemma Sum64_in_uint64_witness : 0 <= 0xEF46DB3751D8E999 < 2 ^ 64.
Proof.
  apply (Sum64_in_uint64 New 0xEF46DB3751D8E999 New).
  vm_compute. reflexivity.
Defined.

Lemma Sum64_ignores_unused_buffer_witness :
  exists h,
    Sum64 (mkDigest 1 2 3 4 3 ([x61; x62; x63] ++ repeat x00 29) 3)
    = Some (h, mkDigest 1 2 3 4 3 ([x61; x62; x63] ++ repeat x00 29) 3) /\
    Sum64 (mkDigest 1 2 3 4 3 ([x61; x62; x63] ++ repeat xff 29) 3)
    = Some (h, mkDigest 1 2 3 4 3 ([x61; x62; x63] ++ repeat xff 29) 3).
Proof.
  apply (Sum64_ignores_unused_buffer
           (mkDigest 1 2 3 4 3 ([x61; x62; x63] ++ repeat x00 29) 3)
           (mkDigest 1 2 3 4 3 ([x61; x62; x63] ++ repeat xff 29) 3)).
  - reflexivity.
  - reflexivity.
  - cbn. lia.
  - repeat split.
Defined.

Lemma Write_respects_view_witness :
  exists d1 d1',
    Write (mkDigest 1 2 3 4 3 ([x61; x62; x63] ++ repeat x00 29) 3)
      (repeat x05 40)
    = Some ((len (repeat x05 40), no_error), d1) /\
    Write (mkDigest 1 2 3 4 3 ([x61; x62; x63] ++ repeat xff 29) 3)
      (repeat x05 40)
    = Some ((len (repeat x05 40), no_error), d1') /\
    same_view d1 d1'.
Proof.
  apply (Write_respects_view
           (mkDigest 1 2 3 4 3 ([x61; x62; x63] ++ repeat x00 29) 3)
           (mkDigest 1 2 3 4 3 ([x61; x62; x63] ++ repeat xff 29) 3)
           (repeat x05 40)).
  - reflexivity.
  - reflexivity.
  - cbn. lia.
  - unfold max_int. cbn. lia.
  - repeat split.
Defined.

Lemma Write_carry_length_witness :
  exists d',
    Write New (repeat x05 40) = Some ((len (repeat x05 40), no_error), d') /\
    n d' = (n New + len (repeat x05 40)) mod BlockSize New /\
    pending d'
    = skipn (Z.to_nat (n New + len (repeat x05 40) - n d'))
        (pending New ++ repeat x05 40) /\
    (n New + len (repeat x05 40) < BlockSize New ->
     lanes d' = lanes New /\ pending d' = pending New ++ repeat x05 40).
Proof.
  apply (Write_carry_length New (repeat x05 40)).
  - reflexivity.
  - cbn. lia.
  - unfold max_int. cbn. lia.
Defined.

Lemma Write_split_witness :
  exists d1 d2 d12 h,
    Write New (repeat x01 20) = Some ((len (repeat x01 20), no_error), d1) /\
    Write d1 (repeat x02 20) = Some ((len (repeat x02 20), no_error), d2) /\
    Write New (repeat x01 20 ++ repeat x02 20)
    = Some ((len (repeat x01 20) + len (repeat x02 20), no_error), d12) /\
    same_view d2 d12 /\
    Sum64 d2 = Some (h, d2) /\ Sum64 d12 = Some (h, d12).
Proof.
  apply (Write_split New (repeat x01 20) (repeat x02 20)).
  - reflexivity.
  - cbn. lia.
  - unfold max_int. cbn. lia.
Defined.

Lemma Write_preserves_well_formed_witness :
  exists d',
    Write New (repeat x05 40) = Some ((len (repeat x05 40), no_error), d') /\
    well_typed d' /\ resting d' /\ lanes_in_range d'.
Proof.
  apply (Write_preserves_well_formed New (repeat x05 40)).
  - constructor; [ reflexivity | | ]; unfold in_int, min_int, max_int; cbn; lia.
  - unfold resting. cbn. lia.
  - unfold lanes_in_range, in_uint64.
    repeat split; vm_compute; (discriminate || reflexivity).
  - unfold max_int. cbn. lia.
Defined.

Lemma Reset_like_New_witness :
  exists d1 d2 h,
    write_all (Reset digest_at_max_int) [[x61]; [x62; x63]] = Some d1 /\
    write_all New [[x61]; [x62; x63]] = Some d2 /\
    Sum64 d1 = Some (h, d1) /\
    Sum64 d2 = Some (h, d2).
Proof.
  apply (Reset_like_New digest_at_max_int [[x61]; [x62; x63]]).
  - reflexivity.
  - unfold max_int. cbn. lia.
Defined.

Lemma round_injective_witness :
  (round 1 2 = round 1 2 -> 1 = 1) /\ (round 1 2 = round 1 2 -> 2 = 2).
Proof.
  apply (round_injective 1 1 2 2); unfold in_uint64; lia.
Defined.

Lemma mergeRound_injective_witness :
  (mergeRound 1 2 = mergeRound 1 2 -> 1 = 1) /\
  (mergeRound 1 2 = mergeRound 1 2 -> 2 = 2).
Proof.
  apply (mergeRound_injective 1 1 2 2); unfold in_uint64; lia.
Defined.

Lemma avalanche_injective_witness : 5 = 5.
Proof.
  apply (avalanche_injective 5 5); [ lia | lia | reflexivity ].
Defined.

Lemma Write_last_byte_matters_witness :
  exists d1 d2 h1 h2,
    Write New ([x61] ++ [x62]) = Some ((len [x61] + 1, no_error), d1) /\
    Write New ([x61] ++ [x63]) = Some ((len [x61] + 1, no_error), d2) /\
    Sum64 d1 = Some (h1, d1) /\
    Sum64 d2 = Some (h2, d2) /\
    h1 <> h2.
Proof.
  apply (Write_last_byte_matters New [x61] x62 x63).
  - reflexivity.
  - cbn. lia.
  - unfold max_int. cbn. lia.
  - vm_compute. discriminate.
  - discriminate.
Defined.


Lemma digest_depends_on_stream_witness :
  exists d d' h,
    run New [CallWrite [x09]; CallReset; CallWrite (repeat x07 40);
             CallSum64; CallWrite [x01; x02]] = Some d /\
    Write New (stream [] [CallWrite [x09]; CallReset;
                          CallWrite (repeat x07 40); CallSum64;
                          CallWrite [x01; x02]])
    = Some ((len (stream [] [CallWrite [x09]; CallReset;
                             CallWrite (repeat x07 40); CallSum64;
                             CallWrite [x01; x02]]), no_error), d') /\
    Sum64 d = Some (h, d) /\
    Sum64 d' = Some (h, d').
Proof.
  apply (digest_depends_on_stream
           [CallWrite [x09]; CallReset; CallWrite (repeat x07 40);
            CallSum64; CallWrite [x01; x02]]).
  unfold max_int. cbn. lia.
Defined.
